(** * xcode-copilot-server: the tool bridge, the session hook and the
      user-agent check

    A shallow embedding of the TypeScript sources:
    - [ToolBridgeState] (tool-bridge/state.ts): tool cache, expected
      queues, pending table, session flags;
    - the bridge route [POST /internal/tool-call] (tool-bridge/routes.ts);
    - [createSessionConfig]'s [hooks.onPreToolUse] (handlers/session-config.ts);
    - the [onRequest] hooks of the application built by [createServer]
      (server.ts);
    - the branch taken by [handleMessages] (handlers/messages.ts);
    - the two versions of [formatCompaction] (handlers/streaming-utils.ts).

    JavaScript strings are modelled as [string]; a [Map] as a [gmap]; the
    callbacks handed to the state are opaque names whose invocations are
    recorded in a trace. *)

From Stdlib Require Import String Ascii List ZArith Lia DecimalString.
From stdpp Require Import gmap strings list fin_maps.
Import ListNotations.

Local Open Scope string_scope.
Local Open Scope list_scope.

(** ** JavaScript string primitives *)

Module JSString.

(** [s.startsWith(p)] *)
Definition startsWith (s p : string) : bool := String.prefix p s.

(** [s.endsWith(suffix)]: the last [suffix.length] code units of [s]
    are [suffix]; false when [suffix] is longer than [s]. *)
Definition endsWith (s suffix : string) : bool :=
  let n := String.length s in
  let k := String.length suffix in
  if (k <=? n)%nat then String.eqb (substring (n - k) k s) suffix else false.

(** The one-character string holding a double quote. *)
Definition dquote : string := String (ascii_of_nat 34) EmptyString.

(** The one-character string holding a line feed. *)
Definition newline : string := String (ascii_of_nat 10) EmptyString.

End JSString.

(** ** Tool definitions and the tool cache *)

(** The fields of a tool definition read by the functions below;
    [input_schema] is only copied by the route [GET /internal/tools]. *)
Record AnthropicToolDefinition := mkTool {
  name : string;
  description : string;
}.

(** [resolveToolName] of tool-bridge/state.ts, on the cached catalog. *)
Definition resolveToolName (cachedTools : list AnthropicToolDefinition)
    (nm : string) : string :=
  if existsb (fun t => String.eqb (name t) nm) cachedTools then nm
  else
    let suffix := "__" +:+ nm in
    let matches :=
      List.filter (fun t => JSString.endsWith (name t) suffix) cachedTools in
    match matches with
    | [t] => name t
    | _ => nm
    end.

(** The wording of the specification: exactly one cached tool has a name
    that ends with [suffix], and it is [t]. *)
Definition only_suffix_match (cachedTools : list AnthropicToolDefinition)
    (suffix : string) (t : AnthropicToolDefinition) : Prop :=
  ∃ before after,
    cachedTools = before ++ t :: after
    ∧ JSString.endsWith (name t) suffix = true
    ∧ ∀ u, u ∈ before ++ after → JSString.endsWith (name u) suffix = false.

(** ** The tool-bridge state (tool-bridge/state.ts) *)

Module ToolBridge.

(** Functions handed to the state by its callers. The state never looks
    inside them, it only calls them: [PromiseResolve p] and
    [PromiseReject p] are the two settle functions of the promise [p]
    built by the bridge route, [Thunk k] is any other [() => void].
    Calling one is recorded as an event; a callback does not call back
    into the state while it runs. *)
Inductive Callback :=
| PromiseResolve (p : nat)
| PromiseReject (p : nat)
| Thunk (k : nat).

#[global] Instance Callback_eq_dec : EqDecision Callback.
Proof. solve_decision. Defined.

(** A handle returned by [setTimeout]. *)
Definition Timer := nat.

Record PendingMCPRequest := mkPending {
  toolCallId : string;
  resolve : Callback;
  reject : Callback;
  timeout : Timer;
}.

(** What happens between the state and the outside: calls of the
    callbacks it was given, calls of [setTimeout] and [clearTimeout], and
    the expiry of a timer. *)
Inductive Event :=
| Resolved (f : Callback) (result : string)  (* f(result) *)
| Rejected (f : Callback) (message : string) (* f(new Error(message)) *)
| Invoked (f : Callback)                     (* f() *)
| SetTimeout (h : Timer)
| ClearTimeout (h : Timer)
| TimerFired (h : Timer).

#[global] Instance Event_eq_dec : EqDecision Event.
Proof. solve_decision. Defined.

(** The fields of [class ToolBridgeState]. *)
Record ToolBridgeState := mkState {
  cachedTools : list AnthropicToolDefinition;
  expectedByName : gmap string (list string);
  pendingByCallId : gmap string PendingMCPRequest;
  reply : option nat;
  streamingDone : option Callback;
  _onSessionEnd : option Callback;
  _sessionActive : bool;
  _hadError : bool;
}.

(** The state together with the part of the runtime it acts on: the
    armed timers (each holds what its closure captured: the call id
    and the reject function), the next fresh timer handle and promise,
    and the trace of events so far, oldest first. *)
Record World := mkWorld {
  this : ToolBridgeState;
  timers : gmap nat (string * Callback);
  nextTimer : nat;
  nextPromise : nat;
  trace : list Event;
}.

(** [new ToolBridgeState()] in a fresh runtime. *)
Definition new_state : ToolBridgeState :=
  mkState [] ∅ ∅ None None None false false.

Definition new_world : World := mkWorld new_state ∅ 0 0 [].

Definition set_this (f : ToolBridgeState → ToolBridgeState) (w : World) : World :=
  mkWorld (f (this w)) (timers w) (nextTimer w) (nextPromise w) (trace w).

Definition set_expectedByName (m : gmap string (list string))
    (s : ToolBridgeState) : ToolBridgeState :=
  mkState (cachedTools s) m (pendingByCallId s) (reply s) (streamingDone s)
          (_onSessionEnd s) (_sessionActive s) (_hadError s).

Definition set_pendingByCallId (m : gmap string PendingMCPRequest)
    (s : ToolBridgeState) : ToolBridgeState :=
  mkState (cachedTools s) (expectedByName s) m (reply s) (streamingDone s)
          (_onSessionEnd s) (_sessionActive s) (_hadError s).

Definition set_reply (r : option nat) (s : ToolBridgeState) : ToolBridgeState :=
  mkState (cachedTools s) (expectedByName s) (pendingByCallId s) r
          (streamingDone s) (_onSessionEnd s) (_sessionActive s) (_hadError s).

Definition set_streamingDone (c : option Callback)
    (s : ToolBridgeState) : ToolBridgeState :=
  mkState (cachedTools s) (expectedByName s) (pendingByCallId s) (reply s)
          c (_onSessionEnd s) (_sessionActive s) (_hadError s).

Definition set_onSessionEnd (c : option Callback)
    (s : ToolBridgeState) : ToolBridgeState :=
  mkState (cachedTools s) (expectedByName s) (pendingByCallId s) (reply s)
          (streamingDone s) c (_sessionActive s) (_hadError s).

Definition set_sessionActive (b : bool) (s : ToolBridgeState) : ToolBridgeState :=
  mkState (cachedTools s) (expectedByName s) (pendingByCallId s) (reply s)
          (streamingDone s) (_onSessionEnd s) b (_hadError s).

Definition set_hadError (b : bool) (s : ToolBridgeState) : ToolBridgeState :=
  mkState (cachedTools s) (expectedByName s) (pendingByCallId s) (reply s)
          (streamingDone s) (_onSessionEnd s) (_sessionActive s) b.

(** Record an event at the end of the trace. *)
Definition emit (e : Event) (w : World) : World :=
  mkWorld (this w) (timers w) (nextTimer w) (nextPromise w) (trace w ++ [e]).

(** [clearTimeout(h)]: the timer, if still armed, is disarmed. *)
Definition clearTimeout (h : Timer) (w : World) : World :=
  emit (ClearTimeout h)
    (mkWorld (this w) (delete h (timers w)) (nextTimer w) (nextPromise w) (trace w)).

(** [setTimeout(() => { pendingByCallId.delete(id); reject(...) }, TOOL_TIMEOUT_MS)]:
    a fresh handle is armed with the closure's captured values. *)
Definition setTimeout (id : string) (rej : Callback) (w : World) : Timer * World :=
  let h := nextTimer w in
  (h, emit (SetTimeout h)
        (mkWorld (this w) (<[h := (id, rej)]> (timers w)) (S h) (nextPromise w) (trace w))).

Definition currentReply (s : ToolBridgeState) : option nat := reply s.
Definition setReply (r : nat) : ToolBridgeState → ToolBridgeState := set_reply (Some r).
Definition clearReply : ToolBridgeState → ToolBridgeState := set_reply None.

Definition cacheTools (tools : list AnthropicToolDefinition)
    (s : ToolBridgeState) : ToolBridgeState :=
  mkState tools (expectedByName s) (pendingByCallId s) (reply s)
          (streamingDone s) (_onSessionEnd s) (_sessionActive s) (_hadError s).

Definition getCachedTools (s : ToolBridgeState) := cachedTools s.

Definition onSessionEnd (callback : Callback) : ToolBridgeState → ToolBridgeState :=
  set_onSessionEnd (Some callback).

Definition includes (x : string) (l : list string) : bool :=
  existsb (String.eqb x) l.

Definition hasPendingToolCall (id : string) (s : ToolBridgeState) : bool :=
  if pendingByCallId s !! id is Some _ then true
  else existsb (fun kv => includes id kv.2) (map_to_list (expectedByName s)).

Definition hasExpectedTool (nm : string) (s : ToolBridgeState) : bool :=
  match expectedByName s !! nm with
  | Some (_ :: _) => true
  | _ => false
  end.

Definition registerExpected (id toolName : string)
    (s : ToolBridgeState) : ToolBridgeState :=
  match expectedByName s !! toolName with
  | Some queue => set_expectedByName (<[toolName := queue ++ [id]]> (expectedByName s)) s
  | None => set_expectedByName (<[toolName := [id]]> (expectedByName s)) s
  end.

Definition addPending (id : string) (res rej : Callback) (w : World) : World :=
  let '(h, w1) := setTimeout id rej w in
  set_this (fun s =>
    set_pendingByCallId (<[id := mkPending id res rej h]> (pendingByCallId s)) s) w1.

Definition no_expected_message (nm : string) : string :=
  "No expected tool call for " +:+ JSString.dquote +:+ nm +:+ JSString.dquote.

Definition registerMCPRequest (nm : string) (res rej : Callback) (w : World) : World :=
  match expectedByName (this w) !! nm with
  | None | Some [] => emit (Rejected rej (no_expected_message nm)) w
  | Some (id :: queue) =>
      (* queue.shift() mutates the array held by the map *)
      let w1 := set_this (fun s =>
                  set_expectedByName (<[nm := queue]> (expectedByName s)) s) w in
      let w2 := match queue with
                | [] => set_this (fun s =>
                          set_expectedByName (delete nm (expectedByName s)) s) w1
                | _ => w1
                end in
      (* if (!toolCallId) return; the empty string is falsy *)
      if String.eqb id EmptyString then w2
      else addPending id res rej w2
  end.

Definition resolveToolCall (id result : string) (w : World) : bool * World :=
  match pendingByCallId (this w) !! id with
  | None => (false, w)
  | Some pending =>
      let w1 := clearTimeout (timeout pending) w in
      let w2 := set_this (fun s =>
                  set_pendingByCallId (delete id (pendingByCallId s)) s) w1 in
      (true, emit (Resolved (resolve pending) result) w2)
  end.

Definition hasPending (s : ToolBridgeState) : bool :=
  (0 <? size (pendingByCallId s))%nat || (0 <? size (expectedByName s))%nat.

Definition sessionActive (s : ToolBridgeState) : bool := _sessionActive s.
Definition hadError (s : ToolBridgeState) : bool := _hadError s.
Definition markSessionErrored : ToolBridgeState → ToolBridgeState := set_hadError true.
Definition markSessionActive : ToolBridgeState → ToolBridgeState := set_sessionActive true.

(** The body of [for (const [, pending] of this.pendingByCallId)]:
    clear the timer, reject with [message]. *)
Definition reject_pending (message : string) (w : World)
    (kv : string * PendingMCPRequest) : World :=
  emit (Rejected (reject kv.2) message) (clearTimeout (timeout kv.2) w).

(** [if (this._onSessionEnd) { this._onSessionEnd(); this._onSessionEnd = null; }] *)
Definition fire_session_end (w : World) : World :=
  match _onSessionEnd (this w) with
  | Some cb => set_this (set_onSessionEnd None) (emit (Invoked cb) w)
  | None => w
  end.

(** The entries of the pending table are visited in the order of
    [map_to_list]; JavaScript visits them in insertion order. The two
    orders differ only in the order of the rejections inside one call. *)
Definition markSessionInactive (w : World) : World :=
  let w1 := set_this (set_sessionActive false) w in
  let w2 := set_this (set_expectedByName ∅) w1 in
  let w3 := foldl (reject_pending "Session ended") w2
                  (map_to_list (pendingByCallId (this w2))) in
  let w4 := set_this (set_pendingByCallId ∅) w3 in
  fire_session_end w4.

Definition cleanup (w : World) : World :=
  let w1 := set_this (set_sessionActive false) w in
  let w2 := foldl (reject_pending "Session cleanup") w1
                  (map_to_list (pendingByCallId (this w1))) in
  let w3 := set_this (set_pendingByCallId ∅) w2 in
  let w4 := set_this (set_expectedByName ∅) w3 in
  fire_session_end w4.

Definition notifyStreamingDone (w : World) : World :=
  match streamingDone (this w) with
  | Some cb => set_this (set_streamingDone None) (emit (Invoked cb) w)
  | None => w
  end.

(** [waitForStreamingDone]: the new promise's resolve function is stored. *)
Definition waitForStreamingDone (w : World) : World :=
  let p := nextPromise w in
  mkWorld (set_streamingDone (Some (PromiseResolve p)) (this w))
          (timers w) (nextTimer w) (S p) (trace w).

(** The timer [h] expires: the closure armed by [addPending] runs. A
    cleared or already expired handle does nothing. *)
Definition timer_fires (h : Timer) (w : World) : World :=
  match timers w !! h with
  | None => w
  | Some (id, rej) =>
      let w1 := emit (TimerFired h)
                  (mkWorld (this w) (delete h (timers w)) (nextTimer w)
                           (nextPromise w) (trace w)) in
      let w2 := set_this (fun s =>
                  set_pendingByCallId (delete id (pendingByCallId s)) s) w1 in
      emit (Rejected rej ("Tool call " +:+ id +:+ " timed out")) w2
  end.

(** The promise of the route [POST /internal/tool-call]
    (tool-bridge/routes.ts):
    [new Promise((resolve, reject) => state.registerMCPRequest(name, resolve, reject))]. *)
Definition tool_call_route (nm : string) (w : World) : World :=
  let p := nextPromise w in
  registerMCPRequest nm (PromiseResolve p) (PromiseReject p)
    (mkWorld (this w) (timers w) (nextTimer w) (S p) (trace w)).

(** The operations performed on one state: [registerExpected],
    [registerMCPRequest] (reached through the bridge route),
    [resolveToolCall], [markSessionInactive], and the expiry of a timer. *)
Inductive Op :=
| RegisterExpected (id toolName : string)
| RegisterMCPRequest (nm : string)
| ResolveToolCall (id result : string)
| MarkSessionInactive
| TimerFires (h : Timer).

Definition step (w : World) (o : Op) : World :=
  match o with
  | RegisterExpected id toolName => set_this (registerExpected id toolName) w
  | RegisterMCPRequest nm => tool_call_route nm w
  | ResolveToolCall id result => (resolveToolCall id result w).2
  | MarkSessionInactive => markSessionInactive w
  | TimerFires h => timer_fires h w
  end.

Definition run (ops : list Op) (w : World) : World := foldl step w ops.

(** How often the callback [f] has been called in a trace. *)
Definition is_call_of (f : Callback) (e : Event) : bool :=
  match e with
  | Resolved g _ | Rejected g _ | Invoked g => bool_decide (g = f)
  | _ => false
  end.

Definition calls (f : Callback) (tr : list Event) : nat :=
  length (List.filter (is_call_of f) tr).

(** How often the promise [p] was settled, by either of its functions. *)
Definition settled (p : nat) (tr : list Event) : nat :=
  calls (PromiseResolve p) tr + calls (PromiseReject p) tr.

(** The promise [p] is parked in the pending table. *)
Definition parked (w : World) (p : nat) : Prop :=
  ∃ id pd, pendingByCallId (this w) !! id = Some pd
           ∧ resolve pd = PromiseResolve p ∧ reject pd = PromiseReject p
           ∧ timers w !! timeout pd = Some (id, PromiseReject p).

(** The events of one pass over the entries [l] of the pending table,
    and the timers left armed by it. *)
Definition rejections (message : string)
    (l : list (string * PendingMCPRequest)) : list Event :=
  flat_map (fun kv => [ClearTimeout (timeout kv.2); Rejected (reject kv.2) message]) l.

Definition disarm (l : list (string * PendingMCPRequest))
    (t : gmap nat (string * Callback)) : gmap nat (string * Callback) :=
  foldl (fun t kv => delete (timeout kv.2) t) t l.

(** The ids handed to [registerExpected] by a sequence of operations. *)
Definition expected_ids (ops : list Op) : list string :=
  flat_map (fun o => match o with RegisterExpected id _ => [id] | _ => [] end) ops.

(** The queues after the head of the queue of [nm] has been shifted. *)
Definition shifted (nm : string) (queue : list string)
    (m : gmap string (list string)) : gmap string (list string) :=
  match queue with
  | [] => delete nm (<[nm := queue]> m)
  | _ => <[nm := queue]> m
  end.

(** The wording of the specification on the callbacks and the timers, as
    a property of the world reached: every promise handed to the route
    has been settled exactly once, and every timer started has been
    cleared. *)
Definition fires_exactly_once (w : World) : Prop :=
  ∀ p, p < nextPromise w → settled p (trace w) = 1.

Definition timers_all_cleared (w : World) : Prop :=
  ∀ h, SetTimeout h ∈ trace w → ClearTimeout h ∈ trace w.

(** The sequence holds no expiry of a timer: it is made of the four
    methods only. *)
Definition no_expiry (ops : list Op) : Prop :=
  ∀ h, TimerFires h ∉ ops.

(** The timer [h] is armed for an entry of the pending table. *)
Definition armed (w : World) (h : Timer) : Prop :=
  ∃ id pd, pendingByCallId (this w) !! id = Some pd ∧ timeout pd = h
           ∧ is_Some (timers w !! h).

(** The invariant of the worlds reached from [new_world] when the ids
    registered ([seen]) are non-empty and pairwise distinct: an id is
    queued or pending, never both; every pending entry holds the two
    functions of one promise not settled so far and an armed timer of its
    own; every armed timer belongs to a pending entry; every other promise
    handed in has been settled once; every timer started is armed, cleared
    or expired. *)
Record Inv (seen : list string) (w : World) : Prop := mkInv {
  inv_no_callback : _onSessionEnd (this w) = None;
  inv_queued : ∀ nm q id,
    expectedByName (this w) !! nm = Some q → id ∈ q →
    id ∈ seen ∧ id ≠ EmptyString ∧ pendingByCallId (this w) !! id = None;
  inv_queue_nodup : ∀ nm q,
    expectedByName (this w) !! nm = Some q → NoDup q;
  inv_queue_disjoint : ∀ nm nm' q q' id,
    nm ≠ nm' →
    expectedByName (this w) !! nm = Some q →
    expectedByName (this w) !! nm' = Some q' →
    id ∈ q → id ∉ q';
  inv_pending : ∀ id pd,
    pendingByCallId (this w) !! id = Some pd →
    id ∈ seen ∧ ∃ p, p < nextPromise w
      ∧ pd = mkPending id (PromiseResolve p) (PromiseReject p) (timeout pd)
      ∧ timers w !! timeout pd = Some (id, PromiseReject p)
      ∧ settled p (trace w) = 0;
  inv_promise : ∀ id id' pd pd',
    pendingByCallId (this w) !! id = Some pd →
    pendingByCallId (this w) !! id' = Some pd' →
    reject pd = reject pd' → id = id';
  inv_timers : ∀ h id rej,
    timers w !! h = Some (id, rej) →
    h < nextTimer w
    ∧ ∃ pd, pendingByCallId (this w) !! id = Some pd ∧ timeout pd = h;
  inv_settled : ∀ p,
    p < nextPromise w → parked w p ∨ settled p (trace w) = 1;
  inv_fresh : ∀ p, (nextPromise w ≤ p)%nat → settled p (trace w) = 0;
  inv_timer_set : ∀ h, SetTimeout h ∈ trace w ↔ h < nextTimer w;
  inv_timer_done : ∀ h,
    h < nextTimer w →
    is_Some (timers w !! h) ∨ ClearTimeout h ∈ trace w ∨ TimerFired h ∈ trace w;
}.

(** What holds of every world reached from [new_world], whatever the
    ids: a pending entry holds the two functions of one promise and an
    armed timer of its own; the promise kept by an armed timer has not
    been settled; two armed timers keep different promises; no promise
    has been settled twice. *)
Record Once (w : World) : Prop := mkOnce {
  once_no_callback : _onSessionEnd (this w) = None;
  once_pending : ∀ id pd,
    pendingByCallId (this w) !! id = Some pd →
    ∃ p, resolve pd = PromiseResolve p ∧ reject pd = PromiseReject p
         ∧ timers w !! timeout pd = Some (id, PromiseReject p);
  once_timers : ∀ h id rej,
    timers w !! h = Some (id, rej) →
    h < nextTimer w
    ∧ ∃ p, rej = PromiseReject p ∧ p < nextPromise w ∧ settled p (trace w) = 0;
  once_timers_inj : ∀ h h' id id' p,
    timers w !! h = Some (id, PromiseReject p) →
    timers w !! h' = Some (id', PromiseReject p) → h = h';
  once_settled : ∀ p, (settled p (trace w) ≤ 1)%nat;
  once_fresh : ∀ p, (nextPromise w ≤ p)%nat → settled p (trace w) = 0;
}.

(** A round trip, a call with nothing expected, and a call still parked
    when the session ends. *)
Definition round_trip : list Op :=
  [RegisterExpected "tc1" "Read"; RegisterMCPRequest "Read";
   RegisterMCPRequest "Read"; ResolveToolCall "tc1" "FILE";
   RegisterExpected "tc2" "Write"; RegisterMCPRequest "Write";
   MarkSessionInactive].

(** A call parked and not yet answered. *)
Definition parked_call : list Op :=
  [RegisterExpected "tc1" "Read"; RegisterMCPRequest "Read"].

End ToolBridge.

(** ** The pre-tool-use hook (handlers/session-config.ts) *)

Module SessionConfig.

(** An entry of [config.mcpServers]. *)
Record MCPServer := mkServer {
  command : string;
  args : list string;
  allowedTools : option (list string);
}.

(** The fields of [ServerConfig] that the hook reads; [mcpServers] in
    the order of [Object.entries]. *)
Record ServerConfig := mkConfig {
  mcpServers : list (string * MCPServer);
  allowedCliTools : list string;
}.

Inductive PermissionDecision := allow | deny.

(** [Array.prototype.includes] on an array of strings. *)
Definition includes (l : list string) (x : string) : bool :=
  existsb (String.eqb x) l.

(** The loop over [Object.entries(config.mcpServers)]: true as soon as
    one server's allowlist admits the tool. *)
Fixpoint some_server_allows (entries : list (string * MCPServer))
    (toolName : string) : bool :=
  match entries with
  | [] => false
  | (_, server) :: rest =>
      let allowlist := default [] (allowedTools server) in
      if includes allowlist "*" || includes allowlist toolName then true
      else some_server_allows rest toolName
  end.

(** [hooks.onPreToolUse] of the object built by [createSessionConfig];
    [hasToolBridge] is the optional field of the options. *)
Definition onPreToolUse (hasToolBridge : option bool) (config : ServerConfig)
    (toolName : string) : PermissionDecision :=
  let hasBridge := default false hasToolBridge in
  if hasBridge && JSString.startsWith toolName "xcode-bridge-" then allow
  else if includes (allowedCliTools config) "*"
          || includes (allowedCliTools config) toolName then allow
  else if some_server_allows (mcpServers config) toolName then allow
  else deny.

(** The wording of the specification for when the hook allows: the
    bridge prefix, the CLI allowlist or some server's allowlist, each
    list with "*" as wildcard. *)
Definition listed (l : list string) (toolName : string) : Prop :=
  "*" ∈ l ∨ toolName ∈ l.

Definition in_some_allowlist (config : ServerConfig) (toolName : string) : Prop :=
  listed (allowedCliTools config) toolName
  ∨ ∃ serverName server, (serverName, server) ∈ mcpServers config
      ∧ listed (default [] (allowedTools server)) toolName.

Definition spec_allows (config : ServerConfig) (toolName : string) : Prop :=
  JSString.startsWith toolName "xcode-bridge-" = true
  ∨ in_some_allowlist config toolName.

End SessionConfig.

(** ** The hooks of the server (server.ts) *)

Module Server.

Record Request := mkRequest {
  method : string;
  url : string;
  headers : gmap string string;   (* request.headers, keyed by lower-case name *)
}.

(** The status, the Content-Type header (if one was set) and the body of
    a reply; its other headers are not modelled. *)
Record Reply := mkReply {
  code : nat;
  content_type : option string;
  payload : string;
}.

(** What an [onRequest] hook did: called [done()], or sent a reply and
    returned without calling it. *)
Inductive HookResult :=
| Done
| Sent (r : Reply).

Definition Hook : Type := Request → HookResult.

(** The string passed to [send]: the JSON text of the object with the
    one member error: Forbidden, and a line feed. *)
Definition forbidden_body : string :=
  "{" +:+ JSString.dquote +:+ "error" +:+ JSString.dquote +:+ ":"
      +:+ JSString.dquote +:+ "Forbidden" +:+ JSString.dquote +:+ "}"
      +:+ JSString.newline.

(** The hook added by [createServer] at lines 33-47. *)
Definition onRequest : Hook := fun request =>
  let ua := default EmptyString (headers request !! "user-agent") in
  if negb (JSString.startsWith ua "Xcode/") then
    Sent (mkReply 403 (Some "application/json") forbidden_body)
  else Done.

(** [!request.headers[name]]: the header is missing or empty. *)
Definition header_missing (request : Request) (name : string) : bool :=
  match headers request !! name with
  | Some v => String.eqb v EmptyString
  | None => true
  end.

(** The [onRequest] hook of the plugin [@fastify/cors], registered at
    lines 27-31 with an [origin] of "*" and nothing said about
    [preflight], [strictPreflight], [preflightContinue] and
    [optionsSuccessStatus]. The plugin is a dependency and its code is
    not in the repository; this is its documented behaviour under the
    defaults of those options: an OPTIONS request is answered by the hook
    itself, with 400 when the Origin or the
    Access-Control-Request-Method header is missing and with an empty
    204 otherwise, and every other request is passed on. The CORS headers
    that the hook adds to every reply are not modelled. *)
Definition cors : Hook := fun request =>
  if String.eqb (method request) "OPTIONS" then
    if header_missing request "origin"
       || header_missing request "access-control-request-method"
    then Sent (mkReply 400 (Some "text/plain") "Invalid Preflight Request")
    else Sent (mkReply 204 None EmptyString)
  else Done.

(** The framework calls the [onRequest] hooks in the order in which
    they were added; a hook that sends a reply without calling [done()]
    ends the request. *)
Fixpoint run_hooks (hooks : list Hook) (request : Request) : HookResult :=
  match hooks with
  | [] => Done
  | hook :: rest =>
      match hook request with
      | Sent r => Sent r
      | Done => run_hooks rest request
      end
  end.

(** The hooks of the application built by [createServer]: that of the
    plugin registered first, then the user-agent check. *)
Definition hooks (plugin : Hook) : list Hook := [plugin; onRequest].

(** The outcome of one request: the reply, and whether the handler of
    the route ran. The framework runs the handler only after every hook
    has called [done()]. *)
Definition serve (plugin : Hook) (handler : Request → Reply)
    (request : Request) : Reply * bool :=
  match run_hooks (hooks plugin) request with
  | Sent r => (r, false)
  | Done => (handler request, true)
  end.

End Server.

(** ** The branch taken by the messages handler (handlers/messages.ts) *)

Module Messages.

(** Modelled from the spec: the message types of schemas/anthropic.ts,
    which is not among the sources. Content is a raw string or a list
    of blocks [Text], [ToolUse {id, name, input}],
    [ToolResult {tool_use_id, content}]; roles are
    user, assistant, system and tool. *)
Inductive ContentBlock :=
| Text (text : string)
| ToolUse (id nm input : string)
| ToolResult (tool_use_id content : string).

Inductive MessageContent :=
| ContentString (s : string)
| ContentBlocks (blocks : list ContentBlock).

Inductive Role := user | assistant | system | tool.

Record Message := mkMessage {
  role : Role;
  content : MessageContent;
}.

Record AnthropicMessagesRequest := mkMessagesRequest {
  model : string;
  messages : list Message;
  tools : option (list AnthropicToolDefinition);
}.

Inductive Branch := Continuation | NewSession.

(** The test at the head of [handleMessages], after the body has been
    parsed: [if (state.hasPending || state.sessionActive)]. *)
Definition handleMessages_branch (state : ToolBridge.ToolBridgeState)
    (req : AnthropicMessagesRequest) : Branch :=
  if ToolBridge.hasPending state || ToolBridge.sessionActive state
  then Continuation else NewSession.

(** The last message is a user message whose content is a plain string. *)
Definition last_is_plain_user (req : AnthropicMessagesRequest) : bool :=
  match last (messages req) with
  | Some (mkMessage user (ContentString _)) => true
  | _ => false
  end.

(** A first request of a conversation. *)
Definition hello : AnthropicMessagesRequest :=
  mkMessagesRequest "claude-sonnet" [mkMessage user (ContentString "Hello")] None.

End Messages.

(** ** JavaScript values read by [formatCompaction] *)

Set Warnings "-register-all".

Module JS.

(** The values the function can tell apart: primitives and plain
    objects with their own properties. Numbers are the integers (token
    counts); arrays, functions and objects with a custom [toString] are
    outside the model. *)
Inductive Value :=
| Undefined
| Null
| Boolean (b : bool)
| Number (z : Z)
| Str (s : string)
| Object (props : list (string * Value)).

(** [!data] is false *)
Definition truthy (v : Value) : bool :=
  match v with
  | Undefined | Null => false
  | Boolean b => b
  | Number z => negb (z =? 0)%Z
  | Str s => negb (String.eqb s EmptyString)
  | Object _ => true
  end.

Definition typeof (v : Value) : string :=
  match v with
  | Undefined => "undefined"
  | Null | Object _ => "object"
  | Boolean _ => "boolean"
  | Number _ => "number"
  | Str _ => "string"
  end.

Fixpoint lookup_prop (key : string) (props : list (string * Value)) : option Value :=
  match props with
  | [] => None
  | (k, v) :: rest => if String.eqb k key then Some v else lookup_prop key rest
  end.

(** [key in v], for an object [v] *)
Definition has (key : string) (v : Value) : bool :=
  match v with
  | Object props => if lookup_prop key props is Some _ then true else false
  | _ => false
  end.

(** [v[key]], for an object [v] *)
Definition get (key : string) (v : Value) : Value :=
  match v with
  | Object props => default Undefined (lookup_prop key props)
  | _ => Undefined
  end.

(** [String(v)] *)
Definition String_ (v : Value) : string :=
  match v with
  | Undefined => "undefined"
  | Null => "null"
  | Boolean true => "true"
  | Boolean false => "false"
  | Number z => NilZero.string_of_int (Z.to_int z)
  | Str s => s
  | Object _ => "[object Object]"
  end.

End JS.

(** ** [formatCompaction], in the copy of the streaming-utils file found
       as an unnamed part of the sources *)

Module StreamingUtilsUnnamed.

Definition formatCompaction (data : JS.Value) : string :=
  if negb (JS.truthy data) || negb (String.eqb (JS.typeof data) "object")
  then "compaction data unavailable"
  else JS.String_ (JS.get "preCompactionTokens" data) +:+ " to "
       +:+ JS.String_ (JS.get "postCompactionTokens" data) +:+ " tokens".

End StreamingUtilsUnnamed.

(** ** [formatCompaction] of src/handlers/streaming-utils.ts *)

Module StreamingUtils.

Definition formatCompaction (data : JS.Value) : string :=
  if negb (JS.truthy data)
     || negb (String.eqb (JS.typeof data) "object")
     || negb (JS.has "preCompactionTokens" data)
     || negb (JS.has "postCompactionTokens" data)
  then "compaction data unavailable"
  else JS.String_ (JS.get "preCompactionTokens" data) +:+ " to "
       +:+ JS.String_ (JS.get "postCompactionTokens" data) +:+ " tokens".

End StreamingUtils.

(** The inputs on which the two versions are compared: [data] passes the
  first two tests, and [data] has both properties. *)
Definition is_object (data : JS.Value) : bool :=
JS.truthy data && String.eqb (JS.typeof data) "object".

Definition has_both (data : JS.Value) : bool :=
JS.has "preCompactionTokens" data && JS.has "postCompactionTokens" data.

(** ** The other fields built by [createSessionConfig]
       (handlers/session-config.ts) *)

Module SessionFields.

Import SessionConfig.

(** An entry of the [mcpServers] object handed to the session: a
    configured server spread with [tools], or the bridge entry
    [{type: "http", url, tools}]. *)
Inductive SessionServer :=
| Configured (server : MCPServer) (tools : list string)
| Http (url : string) (tools : list string).

Definition server_tools (e : SessionServer) : list string :=
  match e with
  | Configured _ tools => tools
  | Http _ tools => tools
  end.

(** [String(n)] for a port number. *)
Definition String_of_port (n : N) : string :=
  NilZero.string_of_uint (N.to_uint n).

(** The template literal of the bridge URL, with [port ?? 8080] and
    [conversationId ?? ""]. *)
Definition bridge_url (port : option N) (conversationId : option string) : string :=
  "http://127.0.0.1:" +:+ String_of_port (default 8080%N port)
    +:+ "/mcp/" +:+ default EmptyString conversationId.

(** [Object.fromEntries(Object.entries(config.mcpServers).map(...))]:
    a later entry of the same name replaces an earlier one. *)
Definition spread_servers (entries : list (string * MCPServer))
    : gmap string SessionServer :=
  foldl (fun m kv => <[kv.1 := Configured kv.2 ["*"]]> m) ∅ entries.

(** The [mcpServers] field: the configured servers, then the bridge
    entry when the bridge is on. *)
Definition session_mcpServers (hasToolBridge : option bool)
    (port : option N) (conversationId : option string)
    (config : ServerConfig) : gmap string SessionServer :=
  let hasBridge := default false hasToolBridge in
  let user := spread_servers (mcpServers config) in
  if hasBridge
  then <["xcode-bridge" := Http (bridge_url port conversationId) ["*"]]> user
  else user.

(** The [availableTools] field, present only without the bridge and
    with a non-empty [allowedCliTools]. *)
Definition availableTools (hasToolBridge : option bool)
    (config : ServerConfig) : option (list string) :=
  let hasBridge := default false hasToolBridge in
  if negb hasBridge && (0 <? length (allowedCliTools config))%nat
  then Some (allowedCliTools config)
  else None.

(** One configuration grants at least what another grants: its CLI
    allowlist contains the other's, and every allowlist of a server of
    the other is contained in the allowlist of one of its servers. *)
Definition grants_more (config config' : ServerConfig) : Prop :=
  (∀ t, t ∈ allowedCliTools config → t ∈ allowedCliTools config')
  ∧ ∀ k server, (k, server) ∈ mcpServers config →
      ∃ k' server', (k', server') ∈ mcpServers config'
        ∧ ∀ t, t ∈ default [] (allowedTools server) →
               t ∈ default [] (allowedTools server').

End SessionFields.

(** ** The logger (logger.ts) *)

Module Logger.

Inductive LogLevel := none | error | warning | info | debug | all.

Definition LEVEL_PRIORITY (level : LogLevel) : nat :=
  match level with
  | none => 0
  | error => 1
  | warning => 2
  | info => 3
  | debug => 4
  | all => 5
  end.

(** The four methods of [class Logger] and the console functions they
    write with; the further arguments of a call are handed to the console
    function unchanged and are left out. *)
Inductive Method := error_ | warn_ | info_ | debug_.

Inductive Console := console_error | console_warn | console_log.

(** One call of a method of [new Logger(level)] with the message [msg]:
    what is written, and with which console function, or nothing. *)
Definition write (level : LogLevel) (m : Method) (msg : string)
    : option (Console * string) :=
  let threshold := LEVEL_PRIORITY level in
  match m with
  | error_ =>
      if (LEVEL_PRIORITY error <=? threshold)%nat
      then Some (console_error, "[ERROR] " +:+ msg) else None
  | warn_ =>
      if (LEVEL_PRIORITY warning <=? threshold)%nat
      then Some (console_warn, "[WARN] " +:+ msg) else None
  | info_ =>
      if (LEVEL_PRIORITY info <=? threshold)%nat
      then Some (console_log, "[INFO] " +:+ msg) else None
  | debug_ =>
      if (LEVEL_PRIORITY debug <=? threshold)%nat
      then Some (console_log, "[DEBUG] " +:+ msg) else None
  end.

Section Truncate.

(** A string is a sequence of code units of type [U]; [ellipsis] is the
    one code unit of the horizontal ellipsis. A value that is not a
    string goes through [JSON.stringify], which gives no string for some
    values; reading [s.length] then throws. [maxLen] is a non-negative
    integer. *)
Context {U V : Type} (ellipsis : U) (JSON_stringify : V → option (list U)).

Definition truncate (value : list U + V) (maxLen : nat) : option (list U) :=
  let s := match value with
           | inl s => Some s
           | inr v => JSON_stringify v
           end in
  match s with
  | None => None
  | Some s =>
      if (length s <=? maxLen)%nat then Some s
      else Some (take maxLen s ++ [ellipsis])
  end.

End Truncate.

End Logger.

(** ** The prompt of the chat-completions provider (utils/prompt.ts,
       types.ts) *)

Module Prompt.

Inductive Role := system | developer | user | assistant | tool.

Record ToolCallFunction := mkFunction {
  name : string;
  arguments : string;
}.

Record ToolCall := mkToolCall {
  id : option string;
  type : option string;
  function : ToolCallFunction;
}.

Section Format.

(** [Content] is the type [MessageContent]; [extractContentText], of
    schemas.ts, is not among the sources and is taken as given, as is the
    replacement [s.replace(re, "")] by the expression that
    [filterExcludedFiles] builds from a non-empty list of patterns. *)
Context {Content : Type}
  (extractContentText : option Content → string)
  (replace_fences : list string → string → string).

Record Message := mkMessage {
  role : option Role;
  content : option Content;
  tool_calls : option (list ToolCall);
  tool_call_id : option string;
}.

Definition filterExcludedFiles (s : string) (patterns : list string) : string :=
  match patterns with
  | [] => s
  | _ => replace_fences patterns s
  end.

(** What one turn of the loop of [formatPrompt] pushes on [parts]. *)
Definition parts_of (excludedFilePatterns : list string) (msg : Message)
    : list string :=
  let content := extractContentText (content msg) in
  match role msg with
  | Some system | Some developer => []
  | Some user =>
      ["[User]: " +:+ filterExcludedFiles content excludedFilePatterns]
  | Some assistant =>
      (if String.eqb content EmptyString then []
       else ["[Assistant]: " +:+ content])
      ++ match tool_calls msg with
         | Some calls =>
             List.map (fun tc =>
               "[Assistant called tool " +:+ name (function tc)
               +:+ " with args: " +:+ arguments (function tc) +:+ "]") calls
         | None => []
         end
  | Some tool =>
      ["[Tool result for " +:+ default "unknown" (tool_call_id msg)
       +:+ "]: " +:+ content]
  | None => []
  end.

Definition separator : string := JSString.newline +:+ JSString.newline.

Definition formatPrompt (messages : list Message)
    (excludedFilePatterns : list string) : string :=
  String.concat separator (flat_map (parts_of excludedFilePatterns) messages).

(** The message is one of those the loop writes for: its role is user,
    assistant or tool. *)
Definition speaks (msg : Message) : bool :=
  match role msg with
  | Some user | Some assistant | Some tool => true
  | _ => false
  end.

End Format.

End Prompt.

(** ** The proxy in front of mcpbridge (scripts/mcpbridge-proxy.mjs) *)

Module McpBridgeProxy.

Section Patch.

(** The values that [JSON.parse] produces. [Number] is the type of JSON
    numbers, of which the code only asks whether they are zero; an object
    is the finite map of its own properties. *)
Context {Number : Type} (nonzero : Number → bool).

Inductive Value :=
| Null
| Bool (b : bool)
| Num (n : Number)
| Str (s : string)
| Arr (items : list Value)
| Obj (props : gmap string Value).

(** [JSON.parse(v)], which throws on some arguments. *)
Context (JSON_parse : Value → option Value).

(** [!v] is false *)
Definition truthy (v : Value) : bool :=
  match v with
  | Null => false
  | Bool b => b
  | Num n => nonzero n
  | Str s => negb (String.eqb s EmptyString)
  | Arr _ | Obj _ => true
  end.

(** [c.type === "text"]; reading a property of [null] throws. *)
Definition is_text_item (c : Value) : option bool :=
  match c with
  | Null => None
  | Obj props =>
      match props !! "type" with
      | Some (Str s) => Some (String.eqb s "text")
      | _ => Some false
      end
  | _ => Some false
  end.

(** [content.find((c) => c.type === "text")]: the first text item, if
    any; nothing at all when the search throws. *)
Fixpoint find_text (items : list Value) : option (option Value) :=
  match items with
  | [] => Some None
  | c :: rest =>
      match is_text_item c with
      | None => None
      | Some true => Some (Some c)
      | Some false => find_text rest
      end
  end.

(** [textItem.text], for a text item *)
Definition text_of (textItem : Value) : option Value :=
  match textItem with
  | Obj props => props !! "text"
  | _ => None
  end.

(** The value given to [result.structuredContent]. *)
Definition synthesise (text : Value) : Value :=
  match JSON_parse text with
  | Some v => v
  | None => Obj {["text" := text]}
  end.

(** [patchIfNeeded(msg)]: the message after the call, which changes it
    in place; nothing when the call throws. *)
Definition patchIfNeeded (msg : Value) : option Value :=
  match msg with
  | Null => None
  | Obj m =>
      match m !! "result" with
      | Some (Obj result) =>
          match result !! "content" with
          | Some (Arr (c :: items)) =>
              match result !! "structuredContent" with
              | Some _ => Some msg
              | None =>
                  match find_text (c :: items) with
                  | None => None
                  | Some None => Some msg
                  | Some (Some textItem) =>
                      match text_of textItem with
                      | Some text =>
                          if truthy text
                          then Some (Obj (<["result" :=
                                   Obj (<["structuredContent" := synthesise text]> result)]> m))
                          else Some msg
                      | None => Some msg
                      end
                  end
              end
          | _ => Some msg
          end
      | _ => Some msg
      end
  | _ => Some msg
  end.

End Patch.

End McpBridgeProxy.

(** * Properties *)

(** ** Tool-name resolution *)

Section ToolCache.

Implicit Types (tools : list AnthropicToolDefinition) (nm : string).

Lemma exact_match_iff tools nm :
  existsb (fun t => String.eqb (name t) nm) tools = true
  ↔ ∃ t, t ∈ tools ∧ name t = nm.
Proof.
  rewrite existsb_exists. split.
  - intros (t & Hin & Heq). exists t. split; [by apply list_elem_of_In|].
    by apply String.eqb_eq.
  - intros (t & Hin & Heq). exists t. split; [by apply list_elem_of_In|].
    by apply String.eqb_eq.
Qed.

Lemma filter_none {A} (f : A → bool) (l : list A) :
  List.filter f l = [] ↔ ∀ u, u ∈ l → f u = false.
Proof.
  induction l as [|a l IH]; simpl.
  - split; [|done]. intros _ u Hu. by apply elem_of_nil in Hu.
  - destruct (f a) eqn:Ha.
    + split; [done|]. intros H. specialize (H a (list_elem_of_here _ _)).
      congruence.
    + rewrite IH. split.
      * intros H u [->|Hu]%elem_of_cons; auto.
      * intros H u Hu. apply H. by apply list_elem_of_further.
Qed.

(** [filter] leaves exactly [[t]] iff [t] is the only element passing. *)
Lemma filter_one {A} (f : A → bool) (l : list A) (t : A) :
  List.filter f l = [t]
  ↔ ∃ before after, l = before ++ t :: after ∧ f t = true
                    ∧ ∀ u, u ∈ before ++ after → f u = false.
Proof.
  revert t. induction l as [|a l IH]; intros t; simpl.
  - split; [done|]. intros (b & c & H & _). by destruct b.
  - destruct (f a) eqn:Ha.
    + split.
      * intros [= -> Hnil]. exists [], l. split_and!; [done..|].
        by apply filter_none.
      * intros (b & c & Hl & Ht & Hrest). destruct b as [|b0 b].
        -- simpl in Hl. injection Hl as -> ->. f_equal.
           by apply filter_none.
        -- simpl in Hl. injection Hl as -> ->.
           specialize (Hrest b0 (list_elem_of_here _ _)). congruence.
    + rewrite IH. split.
      * intros (b & c & -> & Ht & Hrest). exists (a :: b), c.
        split_and!; [done..|]. intros u [->|Hu]%elem_of_cons; auto.
      * intros (b & c & Hl & Ht & Hrest). destruct b as [|b0 b].
        -- simpl in Hl. injection Hl as -> ->. congruence.
        -- simpl in Hl. injection Hl as -> ->. exists b, c.
           split_and!; [done..|]. intros u Hu. apply Hrest.
           by apply list_elem_of_further.
Qed.

Lemma filter_one_elem {A} (f : A → bool) (l : list A) (t : A) :
  List.filter f l = [t] → t ∈ l.
Proof.
  intros (b & c & -> & _)%filter_one. apply elem_of_app. right.
  apply list_elem_of_here.
Qed.

Lemma resolveToolName_exact tools nm t :
  t ∈ tools → name t = nm → resolveToolName tools nm = nm.
Proof.
  intros Hin Heq. unfold resolveToolName.
  assert (existsb (fun t => String.eqb (name t) nm) tools = true) as ->; [|done].
  apply exact_match_iff. eauto.
Qed.

(** The result is [nm] itself or the name of a cached tool. *)
Lemma resolveToolName_cases tools nm :
  resolveToolName tools nm = nm
  ∨ ∃ t, t ∈ tools ∧ resolveToolName tools nm = name t.
Proof.
  unfold resolveToolName.
  destruct (existsb _ tools); [by left|].
  destruct (List.filter _ tools) as [|t [|]] eqn:Hf; [by left| |by left].
  right. exists t. split; [|done]. by eapply filter_one_elem.
Qed.

(** C7. [resolveToolName nm] is [nm] when [nm] is the name of a cached
    tool; failing that, it is the full name of the cached tool whose name
    ends with "__" followed by [nm] when there is exactly one such tool;
    and it is [nm] unchanged when there is none or more than one. *)
Theorem resolveToolName_spec tools nm :
  ((∃ t, t ∈ tools ∧ name t = nm) → resolveToolName tools nm = nm)
  ∧ ((¬ ∃ t, t ∈ tools ∧ name t = nm) →
     (∀ t, only_suffix_match tools ("__" +:+ nm) t →
           resolveToolName tools nm = name t)
     ∧ ((¬ ∃ t, only_suffix_match tools ("__" +:+ nm) t) →
        resolveToolName tools nm = nm)).
Proof.
  split.
  - intros (t & Hin & Heq). by eapply resolveToolName_exact.
  - intros Hno. unfold resolveToolName.
    destruct (existsb _ tools) eqn:He.
    { exfalso. apply Hno. by apply exact_match_iff. }
    split.
    + intros t Ht. unfold only_suffix_match in Ht.
      apply (proj2 (filter_one
               (fun u => JSString.endsWith (name u) ("__" +:+ nm)) tools t)) in Ht.
      by rewrite Ht.
    + intros Hnone.
      destruct (List.filter _ tools) as [|t [|]] eqn:Hf; [done| |done].
      exfalso. apply Hnone. exists t. unfold only_suffix_match.
      by apply (proj1 (filter_one
                  (fun u => JSString.endsWith (name u) ("__" +:+ nm)) tools t)).
Qed.

(** The scenarios of the specification, run on the code. *)
Lemma resolveToolName_spec_witness :
  resolveToolName [mkTool "mcp__xcode-tools__XcodeRead" EmptyString]
                  "mcp__xcode-tools__XcodeRead"
  = "mcp__xcode-tools__XcodeRead"
  ∧ resolveToolName [mkTool "mcp__xcode-tools__XcodeRead" EmptyString] "XcodeRead"
    = "mcp__xcode-tools__XcodeRead"
  ∧ resolveToolName [mkTool "mcp__a__Read" EmptyString;
                     mkTool "mcp__b__Read" EmptyString] "Read" = "Read".
Proof.
  split_and!.
  - refine (proj1 (resolveToolName_spec
             [mkTool "mcp__xcode-tools__XcodeRead" EmptyString]
             "mcp__xcode-tools__XcodeRead") _).
    eexists. split; [apply list_elem_of_here|reflexivity].
  - refine (proj1 (proj2 (resolveToolName_spec
             [mkTool "mcp__xcode-tools__XcodeRead" EmptyString]
             "XcodeRead") _) (mkTool "mcp__xcode-tools__XcodeRead" EmptyString) _).
    + intros (t & Hin & Heq). apply list_elem_of_singleton in Hin.
      subst t. discriminate Heq.
    + exists [], []. split_and!; [reflexivity..|].
      intros u Hu. by apply elem_of_nil in Hu.
  - refine (proj2 (proj2 (resolveToolName_spec
             [mkTool "mcp__a__Read" EmptyString; mkTool "mcp__b__Read" EmptyString]
             "Read") _) _).
    + intros (t & Hin & Heq).
      apply elem_of_cons in Hin as [->|Hin]; [discriminate Heq|].
      apply list_elem_of_singleton in Hin. subst t. discriminate Heq.
    + intros (t & b & c & Hl & Ht & Hrest).
      destruct b as [|b0 [|b1 b]]; simpl in Hl; simplify_eq;
        specialize (Hrest _ (list_elem_of_here _ _)); discriminate Hrest.
Defined.

(** C9. [resolveToolName] is idempotent, for every catalog and name. *)
Theorem resolveToolName_idempotent tools nm :
  resolveToolName tools (resolveToolName tools nm) = resolveToolName tools nm.
Proof.
  destruct (resolveToolName_cases tools nm) as [H|(t & Hin & H)].
  - by rewrite !H.
  - rewrite H. by eapply resolveToolName_exact.
Qed.

End ToolCache.

(** ** The pre-tool-use hook *)

Section Hook.

Import SessionConfig.

Lemma includes_elem (l : list string) (x : string) :
  includes l x = true ↔ x ∈ l.
Proof.
  unfold includes. rewrite existsb_exists. split.
  - intros (y & Hin & Heq). apply String.eqb_eq in Heq. subst y.
    by apply list_elem_of_In.
  - intros Hin. exists x. split; [by apply list_elem_of_In|].
    apply String.eqb_refl.
Qed.

Lemma includes_listed (l : list string) (toolName : string) :
  includes l "*" || includes l toolName = true ↔ listed l toolName.
Proof.
  unfold listed. rewrite orb_true_iff, !includes_elem. tauto.
Qed.

Lemma some_server_allows_iff entries toolName :
  some_server_allows entries toolName = true
  ↔ ∃ serverName server, (serverName, server) ∈ entries
      ∧ listed (default [] (allowedTools server)) toolName.
Proof.
  induction entries as [|[k srv] rest IH]; simpl.
  - split; [done|]. intros (k & srv & Hin & _). by apply elem_of_nil in Hin.
  - destruct (includes _ "*" || includes _ toolName) eqn:Hl.
    + split; [|done]. intros _. exists k, srv. split; [apply list_elem_of_here|].
      by apply includes_listed.
    + rewrite IH. split.
      * intros (k' & srv' & Hin & Hok). exists k', srv'.
        split; [by apply list_elem_of_further|done].
      * intros (k' & srv' & Hin & Hok).
        apply elem_of_cons in Hin as [[= -> ->]|Hin]; [|by eauto].
        apply includes_listed in Hok. congruence.
Qed.

(** C6, as the code has it. The hook allows exactly when the tool
    bridge is on and the tool name begins with "xcode-bridge-", or the
    name (or "*") is in [allowedCliTools], or the name (or "*") is in
    the [allowedTools] of some configured MCP server; for every other
    name it denies. *)
Theorem onPreToolUse_allows hasToolBridge config toolName :
  let allowed :=
    (hasToolBridge = Some true
     ∧ JSString.startsWith toolName "xcode-bridge-" = true)
    ∨ in_some_allowlist config toolName in
  (onPreToolUse hasToolBridge config toolName = allow ↔ allowed)
  ∧ (onPreToolUse hasToolBridge config toolName = deny ↔ ¬ allowed).
Proof.
  intros allowed. subst allowed. unfold onPreToolUse, in_some_allowlist.
  destruct (default false hasToolBridge && JSString.startsWith _ _) eqn:Hb.
  { apply andb_true_iff in Hb as [Hh Hp].
    assert (hasToolBridge = Some true) by (by destruct hasToolBridge as [[]|]).
    split; split; try done; [by eauto|]. intros Hn. exfalso. apply Hn. eauto. }
  assert (¬ (hasToolBridge = Some true
             ∧ JSString.startsWith toolName "xcode-bridge-" = true)) as Hnb.
  { intros [-> Hp]. simpl in Hb. congruence. }
  destruct (includes _ "*" || includes _ toolName) eqn:Hc.
  { apply includes_listed in Hc.
    split; split; try done; [by eauto|]. intros Hn. exfalso. apply Hn. eauto. }
  assert (¬ listed (allowedCliTools config) toolName) as Hnc.
  { intros Hl%includes_listed. congruence. }
  destruct (some_server_allows _ toolName) eqn:Hs.
  { apply some_server_allows_iff in Hs.
    split; split; try done; [by eauto|]. intros Hn. exfalso. apply Hn. eauto. }
  assert (¬ ∃ serverName server, (serverName, server) ∈ mcpServers config
            ∧ listed (default [] (allowedTools server)) toolName) as Hns.
  { intros Hl%some_server_allows_iff. congruence. }
  split; split; try done; tauto.
Qed.

Lemma onPreToolUse_allows_witness :
  onPreToolUse (Some true) (mkConfig [] []) "xcode-bridge-XcodeRead" = allow
  ∧ onPreToolUse None
      (mkConfig [("xcode", mkServer "node" [] (Some ["XcodeBuild"]))] ["glob"])
      "XcodeTest" = deny.
Proof.
  split.
  - apply (onPreToolUse_allows (Some true) (mkConfig [] []) "xcode-bridge-XcodeRead").
    left. split; reflexivity.
  - apply (onPreToolUse_allows None
             (mkConfig [("xcode", mkServer "node" [] (Some ["XcodeBuild"]))] ["glob"])
             "XcodeTest").
    intros [[Hb _]|[[H|H]|(k & srv & Hin & [H|H])]].
    + discriminate Hb.
    + apply list_elem_of_singleton in H. discriminate H.
    + apply list_elem_of_singleton in H. discriminate H.
    + apply list_elem_of_singleton in Hin. injection Hin as -> ->.
      apply list_elem_of_singleton in H. discriminate H.
    + apply list_elem_of_singleton in Hin. injection Hin as -> ->.
      apply list_elem_of_singleton in H. discriminate H.
Defined.

(** C6, counterexample. Without the tool bridge a name that begins
    with "xcode-bridge-" and is in no allowlist is denied, although the
    wording of the specification allows it. *)
Lemma onPreToolUse_prefix_denied :
  spec_allows (mkConfig [] []) "xcode-bridge-XcodeRead"
  ∧ onPreToolUse (Some false) (mkConfig [] []) "xcode-bridge-XcodeRead" = deny
  ∧ onPreToolUse None (mkConfig [] []) "xcode-bridge-XcodeRead" = deny.
Proof. split_and!; [by left|reflexivity..]. Qed.

End Hook.

(** ** The user-agent check *)

Section UserAgent.

Import Server.

Implicit Types (plugin : Hook) (handler : Request → Reply) (request : Request).

(** The hook of the cors plugin passes on every request that is not an
    OPTIONS request. *)
Lemma cors_passes request :
  method request ≠ "OPTIONS" → cors request = Done.
Proof.
  intros Hm. unfold cors.
  destruct (String.eqb_spec (method request) "OPTIONS"); done.
Qed.

(** A request passed on by the plugin meets the user-agent check. *)
Lemma serve_passed plugin handler request :
  plugin request = Done →
  serve plugin handler request
  = match onRequest request with
    | Sent r => (r, false)
    | Done => (handler request, true)
    end.
Proof.
  intros Hp. unfold serve, hooks. cbn [run_hooks]. rewrite Hp.
  by destruct (onRequest request).
Qed.

(** C8. For a request whose User-Agent header is missing or does not
    start with "Xcode/", the handler of the route does not run, whatever
    the hook of the plugin registered before the check does. When that
    hook has answered the request, its reply is the response; when it
    has passed the request on, the response is status 403 with content
    type application/json and the body error: Forbidden as JSON text,
    followed by a line feed. The hook of the cors plugin passes on every
    request whose method is not OPTIONS, which therefore gets the 403. *)
Theorem onRequest_forbids plugin handler request :
  let quote := String (Ascii false true false false false true false false)
                      EmptyString in
  let line_feed := String (Ascii false true false true false false false false)
                          EmptyString in
  let forbidden :=
    mkReply 403 (Some "application/json")
      ("{" +:+ quote +:+ "error" +:+ quote +:+ ":"
           +:+ quote +:+ "Forbidden" +:+ quote +:+ "}" +:+ line_feed) in
  match headers request !! "user-agent" with
  | Some ua => JSString.startsWith ua "Xcode/" = false
  | None => True
  end →
  (serve plugin handler request).2 = false
  ∧ (∀ r, plugin request = Sent r → (serve plugin handler request).1 = r)
  ∧ (plugin request = Done → serve plugin handler request = (forbidden, false))
  ∧ (method request ≠ "OPTIONS" → serve cors handler request = (forbidden, false)).
Proof.
  intros quote line_feed forbidden Hua.
  assert (onRequest request = Sent forbidden) as Hhook.
  { unfold onRequest.
    destruct (headers request !! "user-agent") as [ua|]; cbn [default from_option id].
    - by rewrite Hua.
    - reflexivity. }
  assert (∀ p, p request = Done → serve p handler request = (forbidden, false))
    as Hpassed.
  { intros p Hp. by rewrite (serve_passed p handler request Hp), Hhook. }
  split_and!.
  - destruct (plugin request) as [|r] eqn:Hp.
    + by rewrite (Hpassed plugin Hp).
    + unfold serve, hooks. cbn [run_hooks]. by rewrite Hp.
  - intros r Hp. unfold serve, hooks. cbn [run_hooks]. by rewrite Hp.
  - apply Hpassed.
  - intros Hm. apply Hpassed. by apply cors_passes.
Qed.

Lemma onRequest_forbids_witness :
  let handler := fun _ : Request => mkReply 200 (Some "application/json") "[]" in
  let curl := mkRequest "GET" "/v1/models" {["user-agent" := "curl/8.0"]} in
  let bare := mkRequest "GET" "/v1/models" ∅ in
  (serve cors handler curl).2 = false
  ∧ code (serve cors handler curl).1 = 403
  ∧ serve cors handler bare = serve cors handler curl.
Proof.
  intros handler curl bare.
  destruct (onRequest_forbids cors handler curl) as (Hrun & _ & _ & Hcurl).
  { reflexivity. }
  destruct (onRequest_forbids cors handler bare) as (_ & _ & _ & Hbare).
  { exact I. }
  split_and!.
  - exact Hrun.
  - rewrite Hcurl by discriminate. reflexivity.
  - rewrite Hcurl, Hbare by discriminate. reflexivity.
Defined.

(** C8, counterexample. An OPTIONS request from curl is answered by the
    hook of the cors plugin, which runs before the user-agent check:
    with the two preflight headers the response is an empty 204, without
    them it is 400; neither is the 403 of the check. *)
Lemma onRequest_options_not_forbidden :
  let handler := fun _ : Request => mkReply 200 (Some "application/json") "[]" in
  let preflight :=
    mkRequest "OPTIONS" "/v1/models"
      (<["user-agent" := "curl/8.0"]>
         (<["origin" := "http://localhost:3000"]>
            {["access-control-request-method" := "POST"]})) in
  let bare := mkRequest "OPTIONS" "/v1/models" {["user-agent" := "curl/8.0"]} in
  headers preflight !! "user-agent" = Some "curl/8.0"
  ∧ headers bare !! "user-agent" = Some "curl/8.0"
  ∧ JSString.startsWith "curl/8.0" "Xcode/" = false
  ∧ serve cors handler preflight = (mkReply 204 None EmptyString, false)
  ∧ serve cors handler bare
    = (mkReply 400 (Some "text/plain") "Invalid Preflight Request", false)
  ∧ code (serve cors handler preflight).1 ≠ 403
  ∧ code (serve cors handler bare).1 ≠ 403.
Proof. vm_compute. split_and!; (reflexivity || discriminate). Qed.

(** A request from Xcode reaches the handler. *)
Example onRequest_xcode :
  serve cors (fun _ => mkReply 200 (Some "application/json") "[]")
        (mkRequest "GET" "/v1/models"
           {["user-agent" := "Xcode/24577 CFNetwork/3860.300.31 Darwin/25.2.0"]})
  = (mkReply 200 (Some "application/json") "[]", true).
Proof. vm_compute. reflexivity. Qed.

End UserAgent.

(** ** The branch of the messages handler *)

Section Handler.

Import Messages.

(** C2, as the code has it. For a request whose last message is a user
    message with plain-string content, the handler takes the
    new-session path exactly when the bridge state has nothing pending
    and no active session, and the continuation path otherwise; so two
    such requests that both find the state idle both open a session. *)
Theorem handleMessages_plain_user state req :
  last_is_plain_user req = true →
  (handleMessages_branch state req = NewSession
   ↔ ToolBridge.hasPending state = false ∧ ToolBridge.sessionActive state = false)
  ∧ (handleMessages_branch state req = Continuation
     ↔ ToolBridge.hasPending state = true ∨ ToolBridge.sessionActive state = true).
Proof.
  intros _. unfold handleMessages_branch.
  destruct (ToolBridge.hasPending state), (ToolBridge.sessionActive state);
    simpl; split; split; try done; intuition congruence.
Qed.

Lemma handleMessages_plain_user_witness :
  handleMessages_branch ToolBridge.new_state hello = NewSession.
Proof.
  apply (handleMessages_plain_user ToolBridge.new_state hello); [reflexivity|].
  split; reflexivity.
Defined.

(** C2, counterexample. While a session is active, a request whose
    last message is the plain string "Hello" is handled as a
    continuation. *)
Lemma handleMessages_plain_user_continues :
  last_is_plain_user hello = true
  ∧ handleMessages_branch (ToolBridge.markSessionActive ToolBridge.new_state) hello
    = Continuation.
Proof. split; reflexivity. Qed.

(** The same happens while a tool call is expected. *)
Example handleMessages_expected_continues :
  handleMessages_branch
    (ToolBridge.registerExpected "tc1" "Read" ToolBridge.new_state) hello
  = Continuation.
Proof. vm_compute. reflexivity. Qed.

End Handler.

(** ** The two versions of [formatCompaction] *)

Section Compaction.

Lemma list_ascii_of_append (a b : string) :
  list_ascii_of_string (a +:+ b)
  = list_ascii_of_string a ++ list_ascii_of_string b.
Proof. induction a as [|c a IH]; simpl; [done|]. by rewrite IH. Qed.

(** The two results differ in their last character. *)
Lemma tokens_not_unavailable (a b : string) :
  a +:+ " to " +:+ b +:+ " tokens" ≠ "compaction data unavailable".
Proof.
  intros H. apply (f_equal list_ascii_of_string) in H.
  rewrite !list_ascii_of_append in H.
  apply (f_equal reverse) in H. rewrite !reverse_app in H.
  vm_compute (reverse (list_ascii_of_string " tokens")) in H.
  vm_compute (reverse (list_ascii_of_string "compaction data unavailable")) in H.
  simpl in H. discriminate H.
Qed.

(** C10, as the code has it. The two versions return the same string
    exactly on the inputs that are not an object lacking one of the
    properties preCompactionTokens and postCompactionTokens. *)
Theorem formatCompaction_agree (data : JS.Value) :
  StreamingUtilsUnnamed.formatCompaction data = StreamingUtils.formatCompaction data
  ↔ (is_object data = true → has_both data = true).
Proof.
  unfold StreamingUtilsUnnamed.formatCompaction, StreamingUtils.formatCompaction,
    is_object, has_both.
  destruct (JS.truthy data) eqn:Ht; simpl; [|done].
  destruct (String.eqb (JS.typeof data) "object") eqn:Ho; simpl; [|done].
  destruct (JS.has "preCompactionTokens" data); simpl.
  - destruct (JS.has "postCompactionTokens" data); simpl; [done|].
    split; [|by intros H; specialize (H eq_refl)].
    intros H. by apply tokens_not_unavailable in H.
  - split; [|by intros H; specialize (H eq_refl)].
    intros H. by apply tokens_not_unavailable in H.
Qed.

Lemma formatCompaction_agree_witness :
  StreamingUtilsUnnamed.formatCompaction
    (JS.Object [("preCompactionTokens", JS.Number 1200);
                ("postCompactionTokens", JS.Number 300)])
  = StreamingUtils.formatCompaction
      (JS.Object [("preCompactionTokens", JS.Number 1200);
                  ("postCompactionTokens", JS.Number 300)]).
Proof.
  apply (formatCompaction_agree
           (JS.Object [("preCompactionTokens", JS.Number 1200);
                       ("postCompactionTokens", JS.Number 300)])).
  intros _. reflexivity.
Defined.

(** C10, counterexample. On the empty object the first version prints
    the two missing properties and the second reports the data as
    unavailable. *)
Lemma formatCompaction_differ :
  StreamingUtilsUnnamed.formatCompaction (JS.Object []) = "undefined to undefined tokens"
  ∧ StreamingUtils.formatCompaction (JS.Object []) = "compaction data unavailable".
Proof. split; reflexivity. Qed.

Example formatCompaction_both :
  StreamingUtils.formatCompaction
    (JS.Object [("preCompactionTokens", JS.Number 1200);
                ("postCompactionTokens", JS.Number 300)])
  = "1200 to 300 tokens".
Proof. reflexivity. Qed.

End Compaction.

(** ** The tool-bridge state: single operations *)

Section BridgeOperations.

Import ToolBridge.

Implicit Types (w : World) (s : ToolBridgeState) (id nm : string)
  (pd : PendingMCPRequest) (l : list (string * PendingMCPRequest)).

(** C4. When the queue for [nm] is absent or empty,
    [registerMCPRequest nm resolve reject] calls [reject] at once with
    the message No expected tool call for "nm" (the name in double
    quotes) and changes nothing else: the state, and with it the queues
    and the pending table, is the same, and no timer is started. *)
Theorem registerMCPRequest_unexpected nm res rej w :
  expectedByName (this w) !! nm = None
  ∨ expectedByName (this w) !! nm = Some [] →
  let w' := registerMCPRequest nm res rej w in
  trace w' = trace w ++
    [Rejected rej ("No expected tool call for "
                   +:+ JSString.dquote +:+ nm +:+ JSString.dquote)]
  ∧ this w' = this w
  ∧ timers w' = timers w
  ∧ nextTimer w' = nextTimer w.
Proof.
  intros H. unfold registerMCPRequest.
  destruct H as [-> | ->]; simpl; done.
Qed.

Lemma registerMCPRequest_unexpected_witness :
  trace (registerMCPRequest "Read" (PromiseResolve 0) (PromiseReject 0) new_world)
  = [Rejected (PromiseReject 0)
       ("No expected tool call for " +:+ JSString.dquote +:+ "Read" +:+ JSString.dquote)]
  ∧ this (registerMCPRequest "Read" (PromiseResolve 0) (PromiseReject 0) new_world)
    = new_state.
Proof.
  destruct (registerMCPRequest_unexpected "Read" (PromiseResolve 0)
              (PromiseReject 0) new_world) as (Ht & Hs & _).
  - left. reflexivity.
  - split; [exact Ht | exact Hs].
Defined.

(** C4, counterexample. The message holds the name in double quotes:
    for the tool Read it is not the text No expected tool call for Read,
    which is two characters shorter. *)
Lemma registerMCPRequest_message_quoted :
  let quote := String (Ascii false true false false false true false false)
                      EmptyString in
  let w := registerMCPRequest "Read" (PromiseResolve 0) (PromiseReject 0)
             new_world in
  trace w = [Rejected (PromiseReject 0)
               ("No expected tool call for " +:+ quote +:+ "Read" +:+ quote)]
  ∧ trace w ≠ [Rejected (PromiseReject 0) "No expected tool call for Read"]
  ∧ Rejected (PromiseReject 0) "No expected tool call for Read" ∉ trace w.
Proof.
  vm_compute. split_and!; [reflexivity|discriminate|].
  intros Hin. apply list_elem_of_singleton in Hin. discriminate Hin.
Qed.

Lemma reject_all_spec message l w :
  let w' := foldl (reject_pending message) w l in
  this w' = this w
  ∧ nextTimer w' = nextTimer w
  ∧ nextPromise w' = nextPromise w
  ∧ trace w' = trace w ++ rejections message l
  ∧ timers w' = disarm l (timers w).
Proof.
  revert w. induction l as [|kv l IH]; intros w; simpl.
  - by rewrite app_nil_r.
  - destruct (IH (reject_pending message w kv)) as (H1 & H2 & H3 & H4 & H5).
    rewrite H1, H2, H3, H4, H5. simpl. by rewrite <- !app_assoc.
Qed.

Lemma disarm_lookup_None l (t : gmap nat (string * Callback)) (h : Timer) :
  t !! h = None ∨ (∃ kv, kv ∈ l ∧ timeout kv.2 = h) →
  disarm l t !! h = None.
Proof.
  revert t. induction l as [|kv' l IH]; intros t H; simpl.
  - destruct H as [H|(kv & Hin & _)]; [done|]. by apply elem_of_nil in Hin.
  - apply IH. destruct H as [H|(kv & Hin & Hh)].
    + left. rewrite lookup_delete. by case_decide.
    + apply elem_of_cons in Hin as [->|Hin]; [|by eauto].
      left. rewrite Hh. apply lookup_delete_eq.
Qed.

Lemma disarm_lookup_in l (t : gmap nat (string * Callback)) kv :
  kv ∈ l → disarm l t !! timeout kv.2 = None.
Proof. intros Hin. apply disarm_lookup_None. right. eauto. Qed.

Lemma rejections_in message l kv :
  kv ∈ l →
  ClearTimeout (timeout kv.2) ∈ rejections message l
  ∧ Rejected (reject kv.2) message ∈ rejections message l.
Proof.
  intros Hin. unfold rejections.
  split; apply list_elem_of_In, in_flat_map; exists kv;
    (split; [by apply list_elem_of_In|simpl; auto]).
Qed.

(** What [markSessionInactive] leaves behind, field by field. *)
Lemma markSessionInactive_effect w :
  let l := map_to_list (pendingByCallId (this w)) in
  this (markSessionInactive w)
  = set_onSessionEnd None (set_pendingByCallId ∅
      (set_expectedByName ∅ (set_sessionActive false (this w))))
  ∧ trace (markSessionInactive w)
    = trace w ++ rejections "Session ended" l
        ++ match _onSessionEnd (this w) with
           | Some cb => [Invoked cb]
           | None => []
           end
  ∧ timers (markSessionInactive w) = disarm l (timers w)
  ∧ nextTimer (markSessionInactive w) = nextTimer w
  ∧ nextPromise (markSessionInactive w) = nextPromise w.
Proof.
  intros l. unfold markSessionInactive.
  set (w2 := set_this (set_expectedByName ∅) (set_this (set_sessionActive false) w)).
  change (map_to_list (pendingByCallId (this w2))) with l.
  destruct (reject_all_spec "Session ended" l w2) as (H1 & H2 & H3 & H4 & H5).
  unfold fire_session_end. cbn [this set_this _onSessionEnd set_pendingByCallId].
  rewrite H1. cbn [w2 this set_this _onSessionEnd set_expectedByName set_sessionActive].
  destruct (_onSessionEnd (this w)) as [cb|] eqn:Hcb;
    cbn [this trace timers nextTimer nextPromise set_this emit];
    rewrite ?H1, ?H2, ?H3, ?H4, ?H5;
    cbn [w2 this trace timers nextTimer nextPromise set_this];
    rewrite <- ?app_assoc, ?app_nil_r; split_and!; try done.
  destruct (this w). unfold set_onSessionEnd, set_pendingByCallId,
    set_expectedByName, set_sessionActive. simpl in *. by subst.
Qed.

(** C3. After [markSessionInactive]: [hasPending] is false; no queue
    is left (so every queue is empty); the pending table is empty;
    every entry that was in it has had its timer cleared and its
    [reject] called with the message Session ended; the session-end
    callback, if one was set, has been called, and the slot is null. *)
Theorem markSessionInactive_drains w :
  let w' := markSessionInactive w in
  hasPending (this w') = false
  ∧ expectedByName (this w') = ∅
  ∧ (∀ nm, hasExpectedTool nm (this w') = false)
  ∧ pendingByCallId (this w') = ∅
  ∧ sessionActive (this w') = false
  ∧ _onSessionEnd (this w') = None
  ∧ ∃ evs, trace w' = trace w ++ evs
      ∧ (∀ id pd, pendingByCallId (this w) !! id = Some pd →
           ClearTimeout (timeout pd) ∈ evs
           ∧ Rejected (reject pd) "Session ended" ∈ evs
           ∧ timers w' !! timeout pd = None)
      ∧ (∀ cb, _onSessionEnd (this w) = Some cb → Invoked cb ∈ evs).
Proof.
  intros w'. subst w'.
  destruct (markSessionInactive_effect w) as (Hs & Ht & Hm & _).
  rewrite Hs, Ht, Hm. split_and!; try done.
  eexists. split; [reflexivity|]. split.
  - intros id pd Hpd. apply elem_of_map_to_list in Hpd.
    destruct (rejections_in "Session ended" _ _ Hpd) as [Hc Hr].
    split_and!; [apply elem_of_app; by left..|].
    by apply (disarm_lookup_in _ _ (id, pd)).
  - intros cb ->. apply elem_of_app. right. apply list_elem_of_here.
Qed.

Lemma markSessionInactive_drains_witness :
  let w := tool_call_route "Read"
             (set_this (registerExpected "tc1" "Read") new_world) in
  hasPending (this (markSessionInactive w)) = false
  ∧ ∃ evs, trace (markSessionInactive w) = trace w ++ evs
      ∧ ClearTimeout 0 ∈ evs
      ∧ Rejected (PromiseReject 0) "Session ended" ∈ evs.
Proof.
  intros w.
  destruct (markSessionInactive_drains w)
    as (Hp & _ & _ & _ & _ & _ & evs & Htr & Hpend & _).
  split; [exact Hp|]. exists evs. split; [exact Htr|].
  destruct (Hpend "tc1" (mkPending "tc1" (PromiseResolve 0) (PromiseReject 0) 0))
    as (Hc & Hr & _).
  - vm_compute. reflexivity.
  - split; [exact Hc | exact Hr].
Defined.

(** A parked call is rejected with Session ended, and the callback set
    with [onSessionEnd] is called. *)
Example markSessionInactive_run :
  trace (markSessionInactive
           (tool_call_route "Read"
              (set_this (fun s => registerExpected "tc1" "Read"
                                    (onSessionEnd (Thunk 7) s)) new_world)))
  = [SetTimeout 0; ClearTimeout 0;
     Rejected (PromiseReject 0) "Session ended"; Invoked (Thunk 7)].
Proof. vm_compute. reflexivity. Qed.

End BridgeOperations.

(** ** The tool-bridge state: order of promotion *)

Section BridgeOrder.

Import ToolBridge.

Implicit Types (w : World) (s : ToolBridgeState) (id nm : string).

(** [registerExpected] puts the id at the tail of the queue of its tool. *)
Lemma registerExpected_queue id nm s :
  expectedByName (registerExpected id nm s) !! nm
  = Some (default [] (expectedByName s !! nm) ++ [id]).
Proof.
  unfold registerExpected.
  destruct (expectedByName s !! nm) as [q|] eqn:Hq; simpl;
    by rewrite lookup_insert_eq.
Qed.

Lemma registerExpected_other id nm nm' s :
  nm ≠ nm' →
  expectedByName (registerExpected id nm s) !! nm' = expectedByName s !! nm'.
Proof.
  intros Hne. unfold registerExpected.
  destruct (expectedByName s !! nm) as [q|]; simpl; by rewrite lookup_insert_ne.
Qed.





End BridgeOrder.

(** ** The tool-bridge state: callbacks and timers over sequences *)

Section BridgeInvariant.

Import ToolBridge.

Implicit Types (w : World) (s : ToolBridgeState) (id nm : string)
  (pd : PendingMCPRequest) (seen : list string) (tr : list Event) (p : nat).

Lemma calls_app f tr tr' : calls f (tr ++ tr') = calls f tr + calls f tr'.
Proof. unfold calls. by rewrite List.filter_app, length_app. Qed.

Lemma settled_app p tr tr' :
  settled p (tr ++ tr') = settled p tr + settled p tr'.
Proof. unfold settled. rewrite !calls_app. lia. Qed.

Lemma settled_rejected p p' message :
  settled p [Rejected (PromiseReject p') message] = if decide (p' = p) then 1 else 0.
Proof.
  unfold settled, calls. simpl. case_decide as H.
  - subst. rewrite bool_decide_eq_true_2 by done. done.
  - rewrite bool_decide_eq_false_2 by congruence. done.
Qed.

Lemma settled_resolved p p' result :
  settled p [Resolved (PromiseResolve p') result] = if decide (p' = p) then 1 else 0.
Proof.
  unfold settled, calls. simpl. case_decide as H.
  - subst. rewrite bool_decide_eq_true_2 by done. done.
  - rewrite bool_decide_eq_false_2 by congruence. done.
Qed.

Lemma Inv_new : Inv [] new_world.
Proof.
  split; simpl; try done.
  - intros p Hp. lia.
  - intros h. split; [by intros ?%elem_of_nil|lia].
  - intros h Hh. lia.
Qed.

Lemma parked_same_state w w' p :
  this w' = this w → timers w' = timers w → parked w p → parked w' p.
Proof. intros Hs Ht (id & pd & H). exists id, pd. by rewrite Hs, Ht. Qed.

Lemma Inv_registerExpected seen w id nm :
  Inv seen w → id ∉ seen → id ≠ EmptyString →
  Inv (id :: seen) (set_this (registerExpected id nm) w).
Proof.
  intros HI Hfresh Hne.
  assert (pendingByCallId (registerExpected id nm (this w)) = pendingByCallId (this w))
    as Hpend.
  { unfold registerExpected. by destruct (expectedByName (this w) !! nm). }
  assert (_onSessionEnd (registerExpected id nm (this w)) = _onSessionEnd (this w))
    as Hcb.
  { unfold registerExpected. by destruct (expectedByName (this w) !! nm). }
  assert (∀ nm' q, expectedByName (this w) !! nm' = Some q → id ∉ q) as Hnotin.
  { intros nm' q Hq Hin. by destruct (inv_queued _ _ HI _ _ _ Hq Hin). }
  assert (∀ nm' q', expectedByName (registerExpected id nm (this w)) !! nm' = Some q' →
            (nm' = nm ∧ q' = default [] (expectedByName (this w) !! nm) ++ [id])
            ∨ (nm' ≠ nm ∧ expectedByName (this w) !! nm' = Some q')) as Hcases.
  { intros nm' q' Hq'. destruct (decide (nm' = nm)) as [->|Hn].
    - left. rewrite registerExpected_queue in Hq'. by injection Hq' as <-.
    - right. by rewrite registerExpected_other in Hq'. }
  assert (∀ x, x ∈ default [] (expectedByName (this w) !! nm) →
               ∃ q, expectedByName (this w) !! nm = Some q ∧ x ∈ q) as Hold.
  { intros x Hx. destruct (expectedByName (this w) !! nm) as [q|]; simpl in Hx.
    - eauto.
    - by apply elem_of_nil in Hx. }
  split; cbn [this set_this timers nextTimer nextPromise trace]; rewrite ?Hpend, ?Hcb.
  - apply HI.
  - intros nm' q' x Hq' Hx. destruct (Hcases _ _ Hq') as [[-> ->]|[Hn Hq]].
    + apply elem_of_app in Hx as [Hx|Hx].
      * destruct (Hold _ Hx) as (q & Hq & Hxq).
        destruct (inv_queued _ _ HI _ _ _ Hq Hxq) as (H1 & H2 & H3).
        split_and!; [by apply list_elem_of_further|done..].
      * apply list_elem_of_singleton in Hx as ->.
        split_and!; [apply list_elem_of_here|done|].
        destruct (pendingByCallId (this w) !! id) as [pd|] eqn:Hpd; [|done].
        by destruct (inv_pending _ _ HI _ _ Hpd).
    + destruct (inv_queued _ _ HI _ _ _ Hq Hx) as (H1 & H2 & H3).
      split_and!; [by apply list_elem_of_further|done..].
  - intros nm' q' Hq'. destruct (Hcases _ _ Hq') as [[-> ->]|[Hn Hq]].
    + apply NoDup_app. split_and!.
      * destruct (expectedByName (this w) !! nm) as [q|] eqn:Hq; simpl.
        -- by eapply inv_queue_nodup.
        -- apply NoDup_nil_2.
      * intros x Hx ->%list_elem_of_singleton.
        destruct (Hold _ Hx) as (q & Hq & Hxq). by eapply Hnotin.
      * apply NoDup_singleton.
    + by eapply inv_queue_nodup.
  - intros n1 n2 q1 q2 x Hn Hq1 Hq2 Hx1 Hx2.
    destruct (Hcases _ _ Hq1) as [[-> ->]|[Hn1 Hq1']];
      destruct (Hcases _ _ Hq2) as [[-> ->]|[Hn2 Hq2']]; try done.
    + apply elem_of_app in Hx1 as [Hx1|Hx1].
      * destruct (Hold _ Hx1) as (q & Hq & Hxq).
        by eapply (inv_queue_disjoint _ _ HI nm n2).
      * apply list_elem_of_singleton in Hx1 as ->. by eapply Hnotin.
    + apply elem_of_app in Hx2 as [Hx2|Hx2].
      * destruct (Hold _ Hx2) as (q & Hq & Hxq).
        by eapply (inv_queue_disjoint _ _ HI n1 nm).
      * apply list_elem_of_singleton in Hx2 as ->. by eapply Hnotin.
    + by eapply (inv_queue_disjoint _ _ HI n1 n2).
  - intros x pd Hpd. destruct (inv_pending _ _ HI _ _ Hpd) as (H1 & H2).
    split; [by apply list_elem_of_further|done].
  - apply HI.
  - intros h x rej Hh. by eapply inv_timers.
  - intros p Hp. destruct (inv_settled _ _ HI _ Hp) as [Hpk|Hs]; [|by right].
    left. destruct Hpk as (x & pd & H). exists x, pd. cbn. by rewrite ?Hpend.
  - apply HI.
  - apply HI.
  - apply HI.
Qed.

Lemma shifted_lookup nm queue (m : gmap string (list string)) nm' q' :
  shifted nm queue m !! nm' = Some q' →
  (nm' = nm ∧ q' = queue) ∨ (nm' ≠ nm ∧ m !! nm' = Some q').
Proof.
  unfold shifted. intros H. destruct (decide (nm' = nm)) as [->|Hn].
  - left. split; [done|]. destruct queue.
    + by rewrite lookup_delete_eq in H.
    + rewrite lookup_insert_eq in H. by injection H.
  - right. split; [done|]. destruct queue.
    + by rewrite lookup_delete_ne, lookup_insert_ne in H.
    + by rewrite lookup_insert_ne in H.
Qed.

(** The three outcomes of the bridge route, field by field. *)
Lemma tool_call_route_cases nm w :
  let p := nextPromise w in
  let h := nextTimer w in
  ((expectedByName (this w) !! nm = None ∨ expectedByName (this w) !! nm = Some [])
   ∧ tool_call_route nm w
     = mkWorld (this w) (timers w) h (S p)
         (trace w ++ [Rejected (PromiseReject p) (no_expected_message nm)]))
  ∨ (∃ queue, expectedByName (this w) !! nm = Some (EmptyString :: queue)
      ∧ tool_call_route nm w
        = mkWorld (set_expectedByName (shifted nm queue (expectedByName (this w))) (this w))
            (timers w) h (S p) (trace w))
  ∨ (∃ id queue, expectedByName (this w) !! nm = Some (id :: queue)
      ∧ id ≠ EmptyString
      ∧ tool_call_route nm w
        = mkWorld
            (set_pendingByCallId
               (<[id := mkPending id (PromiseResolve p) (PromiseReject p) h]>
                  (pendingByCallId (this w)))
               (set_expectedByName (shifted nm queue (expectedByName (this w))) (this w)))
            (<[h := (id, PromiseReject p)]> (timers w)) (S h) (S p)
            (trace w ++ [SetTimeout h])).
Proof.
  intros p h. unfold tool_call_route, registerMCPRequest.
  cbn [this]. destruct (expectedByName (this w) !! nm) as [[|id queue]|] eqn:Hq.
  - left. split; [by right|done].
  - right. destruct (String.eqb_spec id EmptyString) as [->|Hne].
    + left. exists queue. split; [done|]. destruct queue; reflexivity.
    + right. exists id, queue. split_and!; [done..|]. destruct queue; reflexivity.
  - left. split; [by left|done].
Qed.

Lemma elem_of_snoc_ne (e e' : Event) tr : e ≠ e' → e ∈ tr ++ [e'] ↔ e ∈ tr.
Proof.
  intros Hne. rewrite elem_of_app, list_elem_of_singleton. tauto.
Qed.

Lemma settled_snoc_other p tr e :
  is_call_of (PromiseResolve p) e = false →
  is_call_of (PromiseReject p) e = false →
  settled p (tr ++ [e]) = settled p tr.
Proof.
  intros H1 H2. rewrite settled_app. unfold settled at 2, calls. simpl.
  rewrite H1, H2. simpl. lia.
Qed.

Lemma Inv_tool_call_route seen w nm :
  Inv seen w → Inv seen (tool_call_route nm w).
Proof.
  intros HI.
  destruct (tool_call_route_cases nm w)
    as [[Hq ->]|[(queue & Hq & ->)|(id & queue & Hq & Hne & ->)]].
  - (* nothing expected: rejected at once *)
    split; cbn [this timers nextTimer nextPromise trace]; try apply HI.
    + intros id pd Hpd.
      destruct (inv_pending _ _ HI _ _ Hpd) as (H1 & p & Hp & H2 & H3 & H4).
      split; [done|]. exists p. split_and!; [lia|done..|].
      rewrite settled_app, H4, settled_rejected. case_decide; [lia|done].
    + intros p Hp. destruct (decide (p = nextPromise w)) as [->|Hn].
      * right. rewrite settled_app, (inv_fresh _ _ HI) by lia.
        rewrite settled_rejected. by case_decide.
      * destruct (inv_settled _ _ HI p) as [Hpk|Hs]; [lia|by left|].
        right. rewrite settled_app, Hs, settled_rejected. case_decide; [lia|done].
    + intros p Hp. rewrite settled_app, (inv_fresh _ _ HI) by lia.
      rewrite settled_rejected. case_decide; [lia|done].
    + intros h. rewrite elem_of_snoc_ne by done. apply HI.
    + intros h Hh. destruct (inv_timer_done _ _ HI h Hh) as [H|[H|H]]; auto.
      * right. left. apply elem_of_app. by left.
      * right. right. apply elem_of_app. by left.
  - (* the head is the empty string: excluded by the invariant *)
    exfalso. destruct (inv_queued _ _ HI _ _ _ Hq (list_elem_of_here _ _))
      as (_ & Hne & _). done.
  - (* the head is promoted *)
    destruct (inv_queued _ _ HI _ _ _ Hq (list_elem_of_here _ _))
      as (Hseen & _ & Hnone).
    pose proof (inv_queue_nodup _ _ HI _ _ Hq) as Hnd.
    apply NoDup_cons in Hnd as [Hnotin Hnd].
    assert (∀ nm' q' x,
              shifted nm queue (expectedByName (this w)) !! nm' = Some q' → x ∈ q' →
              x ≠ id ∧ ∃ q0, expectedByName (this w) !! nm' = Some q0 ∧ x ∈ q0
                             ∧ (nm' = nm → q' = queue)) as Hsh.
    { intros nm' q' x Hq' Hx.
      destruct (shifted_lookup _ _ _ _ _ Hq') as [[-> ->]|[Hn Hq0]].
      - split; [by intros ->|]. exists (id :: queue).
        split_and!; [done|by apply list_elem_of_further|done].
      - split.
        + intros ->.
          by apply (inv_queue_disjoint _ _ HI nm nm' (id :: queue) q' id
                      (not_eq_sym Hn) Hq Hq0 (list_elem_of_here _ _)).
        + exists q'. split_and!; [done..|]. by intros ->. }
    assert (∀ x pd, pendingByCallId (this w) !! x = Some pd →
                    x ≠ id ∧ timeout pd ≠ nextTimer w) as Hold.
    { intros x pd Hpd. split; [intros ->; congruence|].
      destruct (inv_pending _ _ HI _ _ Hpd) as (_ & p & _ & _ & Ht & _).
      destruct (inv_timers _ _ HI _ _ _ Ht) as [Hlt _]. lia. }
    split; cbn [this timers nextTimer nextPromise trace
                set_pendingByCallId set_expectedByName
                expectedByName pendingByCallId _onSessionEnd].
    + apply HI.
    + intros nm' q' x Hq' Hx. destruct (Hsh _ _ _ Hq' Hx) as (Hxid & q0 & Hq0 & Hx0 & _).
      destruct (inv_queued _ _ HI _ _ _ Hq0 Hx0) as (H1 & H2 & H3).
      split_and!; [done..|]. by rewrite lookup_insert_ne.
    + intros nm' q' Hq'.
      destruct (shifted_lookup _ _ _ _ _ Hq') as [[-> ->]|[Hn Hq0]]; [done|].
      by eapply inv_queue_nodup.
    + intros n1 n2 q1 q2 x Hn Hq1 Hq2 Hx1 Hx2.
      destruct (shifted_lookup _ _ _ _ _ Hq1) as [[-> ->]|[Hn1 Hq1']];
        destruct (shifted_lookup _ _ _ _ _ Hq2) as [[-> ->]|[Hn2 Hq2']]; try done.
      * by apply (inv_queue_disjoint _ _ HI nm n2 (id :: queue) q2 x Hn Hq Hq2'
                    (list_elem_of_further _ _ _ Hx1)).
      * apply (inv_queue_disjoint _ _ HI n1 nm q1 (id :: queue) x Hn Hq1' Hq Hx1).
        by apply list_elem_of_further.
      * by apply (inv_queue_disjoint _ _ HI n1 n2 q1 q2 x).
    + intros x pd Hpd. apply lookup_insert_Some in Hpd as [[<- <-]|[Hxid Hpd]].
      * split; [done|]. exists (nextPromise w). cbn [timeout].
        split_and!; [lia|done|apply lookup_insert_eq|].
        rewrite settled_snoc_other by done. apply (inv_fresh _ _ HI). lia.
      * destruct (inv_pending _ _ HI _ _ Hpd) as (H1 & p & Hp & H2 & H3 & H4).
        destruct (Hold _ _ Hpd) as [_ Hh].
        split; [done|]. exists p. split_and!; [lia|done| |].
        -- by rewrite lookup_insert_ne.
        -- by rewrite settled_snoc_other.
    + intros x x' pd pd' Hpd Hpd' Hrej.
      apply lookup_insert_Some in Hpd as [[<- <-]|[Hxid Hpd]];
        apply lookup_insert_Some in Hpd' as [[<- <-]|[Hxid' Hpd']]; try done.
      * destruct (inv_pending _ _ HI _ _ Hpd') as (_ & p & Hp & H2 & _).
        rewrite H2 in Hrej. cbn in Hrej. injection Hrej as Hrej. lia.
      * destruct (inv_pending _ _ HI _ _ Hpd) as (_ & p & Hp & H2 & _).
        rewrite H2 in Hrej. cbn in Hrej. injection Hrej as Hrej. lia.
      * by eapply (inv_promise _ _ HI).
    + intros h x rej Hh. apply lookup_insert_Some in Hh as [[<- [= <- <-]]|[Hhne Hh]].
      * split; [lia|]. eexists. split; [apply lookup_insert_eq|done].
      * destruct (inv_timers _ _ HI _ _ _ Hh) as (Hlt & pd & Hpd & Ht).
        split; [lia|]. exists pd. split; [|done].
        destruct (Hold _ _ Hpd) as [Hxid _]. by rewrite lookup_insert_ne.
    + intros p Hp. destruct (decide (p = nextPromise w)) as [->|Hn].
      * left. exists id, (mkPending id (PromiseResolve (nextPromise w))
                            (PromiseReject (nextPromise w)) (nextTimer w)).
        cbn. split_and!; [apply lookup_insert_eq|done..|apply lookup_insert_eq].
      * destruct (inv_settled _ _ HI p) as [Hpk|Hs]; [lia| |].
        -- left. destruct Hpk as (x & pd & Hpd & H1 & H2 & H3).
           destruct (Hold _ _ Hpd) as [Hxid Hh].
           exists x, pd. cbn. split_and!; [|done..|].
           ++ by rewrite lookup_insert_ne.
           ++ by rewrite lookup_insert_ne.
        -- right. by rewrite settled_snoc_other.
    + intros p Hp. rewrite settled_snoc_other by done. apply (inv_fresh _ _ HI). lia.
    + intros h. rewrite elem_of_app, list_elem_of_singleton, (inv_timer_set _ _ HI).
      split.
      * intros [H|[= ->]]; lia.
      * intros H. destruct (decide (h = nextTimer w)) as [->|Hn]; [by right|].
        left. lia.
    + intros h Hh. destruct (decide (h = nextTimer w)) as [->|Hn].
      * left. rewrite lookup_insert_eq. by eexists.
      * destruct (inv_timer_done _ _ HI h) as [H|[H|H]]; [lia| | |].
        -- left. by rewrite lookup_insert_ne.
        -- right. left. apply elem_of_app. by left.
        -- right. right. apply elem_of_app. by left.
Qed.

(** An entry leaves the pending table: its timer is cleared or has
    expired, and one of its two callbacks is called. *)
Lemma Inv_retire seen w id pd e1 e2 :
  Inv seen w →
  pendingByCallId (this w) !! id = Some pd →
  e1 = ClearTimeout (timeout pd) ∨ e1 = TimerFired (timeout pd) →
  (∃ r, e2 = Resolved (resolve pd) r) ∨ (∃ m, e2 = Rejected (reject pd) m) →
  Inv seen
    (mkWorld (set_pendingByCallId (delete id (pendingByCallId (this w))) (this w))
             (delete (timeout pd) (timers w)) (nextTimer w) (nextPromise w)
             (trace w ++ [e1; e2])).
Proof.
  intros HI Hpd He1 He2.
  destruct (inv_pending _ _ HI _ _ Hpd) as (Hseen & p & Hp & Hshape & Htimer & Hzero).
  set (h := timeout pd) in *.
  assert (∀ x pd', x ≠ id → pendingByCallId (this w) !! x = Some pd' →
            timeout pd' ≠ h ∧ reject pd' ≠ PromiseReject p) as Hother.
  { intros x pd' Hx Hpd'. split.
    - intros Heq.
      destruct (inv_pending _ _ HI _ _ Hpd') as (_ & p' & _ & _ & Ht' & _).
      rewrite Heq, Htimer in Ht'. by injection Ht'.
    - intros Heq. apply Hx. apply (inv_promise _ _ HI x id pd' pd Hpd' Hpd).
      rewrite Heq, Hshape. done. }
  assert (∀ p0, settled p0 (trace w ++ [e1; e2])
                = settled p0 (trace w) + (if decide (p = p0) then 1 else 0)) as Hcount.
  { intros p0. rewrite settled_app. f_equal.
    change [e1; e2] with ([e1] ++ [e2]). rewrite settled_app.
    assert (settled p0 [e1] = 0) as -> by (by destruct He1 as [-> | ->]).
    rewrite Hshape in He2. cbn in He2. destruct He2 as [[r ->]|[m ->]].
    - by rewrite settled_resolved.
    - by rewrite settled_rejected. }
  assert (∀ h0, SetTimeout h0 ∈ trace w ++ [e1; e2] ↔ SetTimeout h0 ∈ trace w) as Hset.
  { intros h0. rewrite elem_of_app, !elem_of_cons, elem_of_nil.
    split; [|tauto]. intros [H|[H|[H|[]]]]; [done|exfalso..].
    - by destruct He1 as [-> | ->].
    - by destruct He2 as [[r ->]|[m ->]]. }
  split; cbn [this timers nextTimer nextPromise trace set_pendingByCallId
              expectedByName pendingByCallId _onSessionEnd]; try apply HI.
  - intros nm q x Hq Hx. destruct (inv_queued _ _ HI _ _ _ Hq Hx) as (H1 & H2 & H3).
    split_and!; [done..|]. rewrite lookup_delete. by case_decide.
  - intros x pd' Hpd'. apply lookup_delete_Some in Hpd' as [Hx Hpd'].
    destruct (Hother _ _ (not_eq_sym Hx) Hpd') as [Hh Hr].
    destruct (inv_pending _ _ HI _ _ Hpd') as (H1 & p' & Hp' & H2 & H3 & H4).
    split; [done|]. exists p'. split_and!; [done..| |].
    + by rewrite lookup_delete_ne.
    + rewrite Hcount, H4. case_decide as Hpp; [|done]. subst p'.
      rewrite H2 in Hr. by cbn in Hr.
  - intros x x' pd1 pd2 H1 H2. apply lookup_delete_Some in H1 as [_ H1].
    apply lookup_delete_Some in H2 as [_ H2]. by eapply (inv_promise _ _ HI).
  - intros h0 x rej Hh0. apply lookup_delete_Some in Hh0 as [Hne Hh0].
    destruct (inv_timers _ _ HI _ _ _ Hh0) as (Hlt & pd0 & Hpd0 & Ht0).
    split; [done|]. exists pd0. split; [|done].
    rewrite lookup_delete_ne; [done|]. intros <-.
    rewrite Hpd in Hpd0. injection Hpd0 as <-. by apply Hne.
  - intros p0 Hp0. destruct (decide (p = p0)) as [<-|Hn].
    + right. rewrite Hcount, Hzero. by case_decide.
    + destruct (inv_settled _ _ HI p0 Hp0) as [Hpk|Hs].
      * left. destruct Hpk as (x & pd0 & Hpd0 & H1 & H2 & H3).
        assert (x ≠ id) as Hx.
        { intros ->. rewrite Hpd in Hpd0. injection Hpd0 as <-.
          rewrite Hshape in H2. cbn in H2. congruence. }
        destruct (Hother _ _ Hx Hpd0) as [Hh _].
        exists x, pd0. cbn. split_and!; [|done..|].
        -- by rewrite lookup_delete_ne.
        -- by rewrite lookup_delete_ne.
      * right. rewrite Hcount, Hs. by case_decide.
  - intros p0 Hp0. rewrite Hcount, (inv_fresh _ _ HI) by done.
    case_decide; [lia|done].
  - intros h0. rewrite Hset. apply HI.
  - intros h0 Hh0. destruct (decide (h0 = h)) as [->|Hn].
    + right. destruct He1 as [-> | ->].
      * left. apply elem_of_app. right. apply list_elem_of_here.
      * right. apply elem_of_app. right. apply list_elem_of_here.
    + destruct (inv_timer_done _ _ HI h0 Hh0) as [H|[H|H]].
      * left. by rewrite lookup_delete_ne.
      * right. left. apply elem_of_app. by left.
      * right. right. apply elem_of_app. by left.
Qed.

Lemma Inv_resolveToolCall seen w id result :
  Inv seen w → Inv seen (resolveToolCall id result w).2.
Proof.
  intros HI. unfold resolveToolCall.
  destruct (pendingByCallId (this w) !! id) as [pd|] eqn:Hpd; [|done].
  unfold emit, set_this, clearTimeout. simpl.
  rewrite <- app_assoc. apply Inv_retire; eauto.
Qed.

Lemma Inv_timer_fires seen w (h : Timer) :
  Inv seen w → Inv seen (timer_fires h w).
Proof.
  intros HI. unfold timer_fires.
  destruct (timers w !! h) as [[id rej]|] eqn:Hh; [|done].
  destruct (inv_timers _ _ HI _ _ _ Hh) as (_ & pd & Hpd & <-).
  destruct (inv_pending _ _ HI _ _ Hpd) as (_ & p & _ & Hshape & Ht & _).
  rewrite Hh in Ht. injection Ht as ->.
  unfold emit, set_this. simpl.
  rewrite <- app_assoc. apply Inv_retire; [done..|by right|].
  right. rewrite Hshape. cbn. eauto.
Qed.

(** Counting the calls made by one pass over the pending table. *)
Lemma settled_rejections_none p message (l : list (string * PendingMCPRequest)) :
  (∀ kv, kv ∈ l → ∃ p', reject kv.2 = PromiseReject p' ∧ p' ≠ p) →
  settled p (rejections message l) = 0.
Proof.
  induction l as [|kv l IH]; intros Hl; [done|].
  change (rejections message (kv :: l))
    with ([ClearTimeout (timeout kv.2)] ++ [Rejected (reject kv.2) message]
          ++ rejections message l).
  rewrite !settled_app.
  destruct (Hl kv (list_elem_of_here _ _)) as (p' & -> & Hne).
  rewrite settled_rejected, IH.
  - by case_decide.
  - intros kv' Hin. apply Hl. by apply list_elem_of_further.
Qed.

Lemma settled_rejections_one p message (l : list (string * PendingMCPRequest)) kv0 :
  NoDup (l.*1) →
  (∀ kv, kv ∈ l → ∃ p', reject kv.2 = PromiseReject p') →
  (∀ kv kv', kv ∈ l → kv' ∈ l → reject kv.2 = reject kv'.2 → kv.1 = kv'.1) →
  kv0 ∈ l → reject kv0.2 = PromiseReject p →
  settled p (rejections message l) = 1.
Proof.
  induction l as [|kv l IH]; intros Hnd Hform Hinj Hin Hrej.
  { by apply elem_of_nil in Hin. }
  change (rejections message (kv :: l))
    with ([ClearTimeout (timeout kv.2)] ++ [Rejected (reject kv.2) message]
          ++ rejections message l).
  rewrite !settled_app. rewrite fmap_cons in Hnd.
  apply NoDup_cons in Hnd as [Hfst Hnd].
  assert (∀ kv', kv' ∈ l → reject kv'.2 ≠ reject kv.2) as Hdiff.
  { intros kv' Hin' Heq. apply Hfst.
    rewrite <- (Hinj kv' kv); [|by apply list_elem_of_further|apply list_elem_of_here|done].
    apply list_elem_of_fmap. by exists kv'. }
  apply elem_of_cons in Hin as [->|Hin].
  - rewrite Hrej, settled_rejected, settled_rejections_none.
    + by case_decide.
    + intros kv' Hin'. destruct (Hform kv' (list_elem_of_further _ _ _ Hin')) as [p' Hp'].
      exists p'. split; [done|]. intros ->. apply (Hdiff _ Hin'). congruence.
  - destruct (Hform kv (list_elem_of_here _ _)) as [p' Hp'].
    rewrite Hp', settled_rejected, IH; try done.
    + case_decide as Hpp; [|done]. subst p'. exfalso. apply (Hdiff _ Hin). congruence.
    + intros kv' Hin'. apply Hform. by apply list_elem_of_further.
    + intros k1 k2 H1 H2. apply Hinj; by apply list_elem_of_further.
Qed.

Lemma rejections_no_set message (l : list (string * PendingMCPRequest)) (h : Timer) :
  SetTimeout h ∉ rejections message l.
Proof.
  induction l as [|kv l IH]; [apply not_elem_of_nil|].
  change (rejections message (kv :: l))
    with (ClearTimeout (timeout kv.2) :: Rejected (reject kv.2) message
          :: rejections message l).
  rewrite !not_elem_of_cons. done.
Qed.

Lemma Inv_markSessionInactive seen w :
  Inv seen w → Inv seen (markSessionInactive w).
Proof.
  intros HI.
  destruct (markSessionInactive_effect w) as (Hs & Ht & Hm & Hnt & Hnp).
  rewrite (inv_no_callback _ _ HI), app_nil_r in Ht.
  set (l := map_to_list (pendingByCallId (this w))) in *.
  assert (NoDup (l.*1)) as Hnd by apply NoDup_fst_map_to_list.
  assert (∀ kv, kv ∈ l → pendingByCallId (this w) !! kv.1 = Some kv.2) as Hl.
  { intros [x pd] Hin. by apply elem_of_map_to_list in Hin. }
  assert (∀ kv, kv ∈ l → ∃ p', reject kv.2 = PromiseReject p') as Hform.
  { intros kv Hin. destruct (inv_pending _ _ HI _ _ (Hl _ Hin)) as (_ & p & _ & -> & _).
    by exists p. }
  assert (∀ h, timers (markSessionInactive w) !! h = None) as Hdisarmed.
  { intros h. rewrite Hm. apply disarm_lookup_None.
    destruct (timers w !! h) as [[x rej]|] eqn:Hh; [|by left]. right.
    destruct (inv_timers _ _ HI _ _ _ Hh) as (_ & pd & Hpd & Hto).
    exists (x, pd). split; [|done]. by apply elem_of_map_to_list. }
  split; rewrite ?Hs, ?Ht, ?Hnt, ?Hnp;
    cbn [this set_onSessionEnd set_pendingByCallId set_expectedByName
         expectedByName pendingByCallId _onSessionEnd]; try done.
  - intros h x rej Hh. by rewrite Hdisarmed in Hh.
  - intros p Hp. right. rewrite settled_app.
    destruct (inv_settled _ _ HI p Hp) as [(x & pd & Hpd & H1 & H2 & H3)|Hone].
    + destruct (inv_pending _ _ HI _ _ Hpd) as (_ & p' & _ & Hshape & _ & Hzero).
      rewrite Hshape in H2. cbn in H2. injection H2 as ->. rewrite Hzero.
      rewrite (settled_rejections_one p _ l (x, pd)); try done.
      * intros k1 k2 Hk1 Hk2 Heq.
        by apply (inv_promise _ _ HI _ _ _ _ (Hl _ Hk1) (Hl _ Hk2)).
      * by apply elem_of_map_to_list.
      * by rewrite Hshape.
    + rewrite Hone, settled_rejections_none; [done|].
      intros kv Hin.
      destruct (inv_pending _ _ HI _ _ (Hl _ Hin)) as (_ & p' & _ & Hshape & _ & Hzero).
      exists p'. split; [by rewrite Hshape|]. intros ->. congruence.
  - intros p Hp. rewrite settled_app, (inv_fresh _ _ HI) by done.
    rewrite settled_rejections_none; [done|].
    intros kv Hin.
    destruct (inv_pending _ _ HI _ _ (Hl _ Hin)) as (_ & p' & Hp' & Hshape & _).
    exists p'. split; [by rewrite Hshape|lia].
  - intros h. rewrite elem_of_app. rewrite <- (inv_timer_set _ _ HI).
    split; [|tauto]. intros [H|H]; [done|]. by apply rejections_no_set in H.
  - intros h Hh. right.
    destruct (inv_timer_done _ _ HI h Hh) as [[[x rej] Harmed]|[H|H]].
    + left. apply elem_of_app. right.
      destruct (inv_timers _ _ HI _ _ _ Harmed) as (_ & pd & Hpd & <-).
      apply (rejections_in _ l (x, pd)). by apply elem_of_map_to_list.
    + left. apply elem_of_app. by left.
    + right. apply elem_of_app. by left.
Qed.

(** The invariant holds along every sequence of operations whose
    registered ids are non-empty and pairwise distinct. *)
Lemma Inv_run ops seen w :
  Inv seen w →
  NoDup (expected_ids ops) →
  (∀ id, id ∈ expected_ids ops → (id ∉ seen) ∧ id ≠ EmptyString) →
  ∃ seen', Inv seen' (run ops w).
Proof.
  revert seen w. induction ops as [|o ops IH]; intros seen w HI Hnd Hids.
  { by exists seen. }
  unfold run. simpl. fold (run ops (step w o)).
  destruct o as [id nm|nm|id result| |h]; simpl in *.
  - apply NoDup_cons in Hnd as [Hfresh Hnd].
    destruct (Hids id (list_elem_of_here _ _)) as [Hns Hne].
    apply (IH (id :: seen)); [by apply Inv_registerExpected|done|].
    intros x Hx. destruct (Hids x (list_elem_of_further _ _ _ Hx)) as [H1 H2].
    split; [|done]. apply not_elem_of_cons. split; [|done]. by intros ->.
  - apply (IH seen); [by apply Inv_tool_call_route|done..].
  - apply (IH seen); [by apply Inv_resolveToolCall|done..].
  - apply (IH seen); [by apply Inv_markSessionInactive|done..].
  - apply (IH seen); [by apply Inv_timer_fires|done..].
Qed.

Lemma rejections_no_expiry message (l : list (string * PendingMCPRequest)) (h : Timer) :
  TimerFired h ∉ rejections message l.
Proof.
  induction l as [|kv l IH]; [apply not_elem_of_nil|].
  change (rejections message (kv :: l))
    with (ClearTimeout (timeout kv.2) :: Rejected (reject kv.2) message
          :: rejections message l).
  rewrite !not_elem_of_cons. done.
Qed.

(** Only the expiry of a timer records [TimerFired]. *)
Lemma step_no_expiry w o (h : Timer) :
  (∀ h', o ≠ TimerFires h') →
  TimerFired h ∉ trace w → TimerFired h ∉ trace (step w o).
Proof.
  intros Ho Hw. destruct o as [id nm|nm|id result| |h']; simpl.
  - done.
  - destruct (tool_call_route_cases nm w)
      as [[_ ->]|[(queue & _ & ->)|(id & queue & _ & _ & ->)]]; simpl; [|done|].
    + by rewrite elem_of_snoc_ne.
    + by rewrite elem_of_snoc_ne.
  - unfold resolveToolCall. destruct (pendingByCallId (this w) !! id); [|done].
    simpl. by rewrite !elem_of_snoc_ne.
  - destruct (markSessionInactive_effect w) as (_ & -> & _).
    rewrite !not_elem_of_app. split_and!; [done|apply rejections_no_expiry|].
    destruct (_onSessionEnd (this w)); [|apply not_elem_of_nil].
    by rewrite list_elem_of_singleton.
  - by destruct (Ho h').
Qed.

Lemma run_no_expiry ops w (h : Timer) :
  no_expiry ops → TimerFired h ∉ trace w → TimerFired h ∉ trace (run ops w).
Proof.
  revert w. induction ops as [|o ops IH]; intros w Hops Hw; [done|].
  unfold run. simpl. fold (run ops (step w o)). apply IH.
  - intros h' Hin. apply (Hops h'). by apply list_elem_of_further.
  - apply step_no_expiry; [|done]. intros h' ->. apply (Hops h'), list_elem_of_here.
Qed.

End BridgeInvariant.

(** ** The tool-bridge state: no pair fires twice *)

Section BridgeOnce.

Import ToolBridge.

Implicit Types (w : World) (s : ToolBridgeState) (id nm : string)
  (pd : PendingMCPRequest) (tr : list Event) (p : nat).

Lemma Once_new : Once new_world.
Proof. split; simpl; try done. intros p. unfold settled, calls. simpl. lia. Qed.

Lemma Once_registerExpected w id nm :
  Once w → Once (set_this (registerExpected id nm) w).
Proof.
  intros HO.
  assert (pendingByCallId (registerExpected id nm (this w)) = pendingByCallId (this w))
    as Hpend.
  { unfold registerExpected. by destruct (expectedByName (this w) !! nm). }
  assert (_onSessionEnd (registerExpected id nm (this w)) = _onSessionEnd (this w))
    as Hcb.
  { unfold registerExpected. by destruct (expectedByName (this w) !! nm). }
  split; cbn [this set_this timers nextTimer nextPromise trace];
    rewrite ?Hpend, ?Hcb; apply HO.
Qed.

Lemma Once_tool_call_route w nm :
  Once w → Once (tool_call_route nm w).
Proof.
  intros HO.
  destruct (tool_call_route_cases nm w)
    as [[Hq ->]|[(queue & Hq & ->)|(id & queue & Hq & Hne & ->)]].
  - split; cbn [this timers nextTimer nextPromise trace]; try apply HO.
    + intros h id rej Hh.
      destruct (once_timers _ HO _ _ _ Hh) as (Hlt & p & -> & Hp & Hz).
      split; [done|]. exists p. split_and!; [done|lia|].
      rewrite settled_app, Hz, settled_rejected. case_decide; [lia|done].
    + intros p. rewrite settled_app, settled_rejected. case_decide as Hp.
      * subst p. rewrite (once_fresh _ HO) by lia. lia.
      * pose proof (once_settled _ HO p). lia.
    + intros p Hp. rewrite settled_app, (once_fresh _ HO) by lia.
      rewrite settled_rejected. case_decide; [lia|done].
  - split; cbn [this timers nextTimer nextPromise trace set_expectedByName
                pendingByCallId _onSessionEnd]; try apply HO.
    + intros h id rej Hh.
      destruct (once_timers _ HO _ _ _ Hh) as (Hlt & p & -> & Hp & Hz).
      split; [done|]. exists p. split_and!; [done|lia|done].
    + intros p Hp. apply (once_fresh _ HO). lia.
  - split; cbn [this timers nextTimer nextPromise trace set_pendingByCallId
                set_expectedByName pendingByCallId _onSessionEnd]; try apply HO.
    + intros x pd Hpd. apply lookup_insert_Some in Hpd as [[<- <-]|[Hx Hpd]].
      * exists (nextPromise w). cbn. split_and!; [done..|apply lookup_insert_eq].
      * destruct (once_pending _ HO _ _ Hpd) as (p & H1 & H2 & H3).
        exists p. split_and!; [done..|].
        destruct (once_timers _ HO _ _ _ H3) as [Hlt _].
        rewrite lookup_insert_ne; [done|lia].
    + intros h x rej Hh. apply lookup_insert_Some in Hh as [[<- [= <- <-]]|[Hhne Hh]].
      * split; [lia|]. exists (nextPromise w). split_and!; [done|lia|].
        rewrite settled_snoc_other by done. apply (once_fresh _ HO). lia.
      * destruct (once_timers _ HO _ _ _ Hh) as (Hlt & p & -> & Hp & Hz).
        split; [lia|]. exists p. split_and!; [done|lia|].
        by rewrite settled_snoc_other.
    + intros h h' x x' p Hh Hh'.
      apply lookup_insert_Some in Hh as [[Hh1 Hh2]|[Hhne Hh]];
        apply lookup_insert_Some in Hh' as [[Hh1' Hh2']|[Hhne' Hh']].
      * congruence.
      * injection Hh2 as _ <-.
        destruct (once_timers _ HO _ _ _ Hh') as (_ & p' & [= <-] & Hp & _). lia.
      * injection Hh2' as _ <-.
        destruct (once_timers _ HO _ _ _ Hh) as (_ & p' & [= <-] & Hp & _). lia.
      * by eapply (once_timers_inj _ HO).
    + intros p. rewrite settled_snoc_other by done. apply HO.
    + intros p Hp. rewrite settled_snoc_other by done. apply (once_fresh _ HO). lia.
Qed.

(** An armed timer is disarmed and the promise it keeps is settled. *)
Lemma Once_retire w (h : Timer) id p e1 e2 :
  Once w →
  timers w !! h = Some (id, PromiseReject p) →
  e1 = ClearTimeout h ∨ e1 = TimerFired h →
  (∃ r, e2 = Resolved (PromiseResolve p) r) ∨ (∃ m, e2 = Rejected (PromiseReject p) m) →
  Once (mkWorld (set_pendingByCallId (delete id (pendingByCallId (this w))) (this w))
                (delete h (timers w)) (nextTimer w) (nextPromise w)
                (trace w ++ [e1; e2])).
Proof.
  intros HO Hh He1 He2.
  destruct (once_timers _ HO _ _ _ Hh) as (Hlt & p' & [= <-] & Hp & Hzero).
  assert (∀ p0, settled p0 (trace w ++ [e1; e2])
                = settled p0 (trace w) + (if decide (p = p0) then 1 else 0)) as Hcount.
  { intros p0. rewrite settled_app. f_equal.
    change [e1; e2] with ([e1] ++ [e2]). rewrite settled_app.
    assert (settled p0 [e1] = 0) as -> by (by destruct He1 as [-> | ->]).
    destruct He2 as [[r ->]|[m ->]].
    - by rewrite settled_resolved.
    - by rewrite settled_rejected. }
  split; cbn [this timers nextTimer nextPromise trace set_pendingByCallId
              pendingByCallId _onSessionEnd]; try apply HO.
  - intros x pd Hpd. apply lookup_delete_Some in Hpd as [Hx Hpd].
    destruct (once_pending _ HO _ _ Hpd) as (p0 & H1 & H2 & H3).
    exists p0. split_and!; [done..|]. rewrite lookup_delete_ne; [done|].
    intros Heq. rewrite Heq, H3 in Hh. injection Hh as ? ?. done.
  - intros h0 x rej Hh0. apply lookup_delete_Some in Hh0 as [Hne Hh0].
    destruct (once_timers _ HO _ _ _ Hh0) as (Hlt0 & p0 & -> & Hp0 & Hz0).
    split; [done|]. exists p0. split_and!; [done..|].
    rewrite Hcount, Hz0. case_decide as Hpp; [|done]. subst p0. exfalso.
    apply Hne. by eapply (once_timers_inj _ HO).
  - intros h1 h2 x1 x2 p0 H1 H2. apply lookup_delete_Some in H1 as [_ H1].
    apply lookup_delete_Some in H2 as [_ H2]. by eapply (once_timers_inj _ HO).
  - intros p0. rewrite Hcount. case_decide as Hpp.
    + subst p0. lia.
    + pose proof (once_settled _ HO p0). lia.
  - intros p0 Hp0. rewrite Hcount, (once_fresh _ HO) by done.
    case_decide; [lia|done].
Qed.

Lemma Once_resolveToolCall w id result :
  Once w → Once (resolveToolCall id result w).2.
Proof.
  intros HO. unfold resolveToolCall.
  destruct (pendingByCallId (this w) !! id) as [pd|] eqn:Hpd; [|done].
  destruct (once_pending _ HO _ _ Hpd) as (p & H1 & H2 & H3).
  unfold emit, set_this, clearTimeout. simpl.
  rewrite <- app_assoc, H1. eapply Once_retire; eauto.
Qed.

Lemma Once_timer_fires w (h : Timer) :
  Once w → Once (timer_fires h w).
Proof.
  intros HO. unfold timer_fires.
  destruct (timers w !! h) as [[id rej]|] eqn:Hh; [|done].
  destruct (once_timers _ HO _ _ _ Hh) as (_ & p & -> & _).
  unfold emit, set_this. simpl.
  rewrite <- app_assoc. eapply Once_retire; eauto.
Qed.

Lemma disarm_lookup_Some (l : list (string * PendingMCPRequest))
    (t : gmap nat (string * Callback)) (h : Timer) v :
  disarm l t !! h = Some v →
  t !! h = Some v ∧ ∀ kv, kv ∈ l → timeout kv.2 ≠ h.
Proof.
  revert t. induction l as [|kv l IH]; intros t H; simpl in H.
  - split; [done|]. intros kv Hin. by apply elem_of_nil in Hin.
  - apply IH in H as [H Hl]. apply lookup_delete_Some in H as [Hne H].
    split; [done|]. intros kv' [->|Hin]%elem_of_cons; auto.
Qed.

Lemma settled_rejections_pos p message (l : list (string * PendingMCPRequest)) :
  (∀ kv, kv ∈ l → ∃ p', reject kv.2 = PromiseReject p') →
  settled p (rejections message l) ≠ 0 →
  ∃ kv, kv ∈ l ∧ reject kv.2 = PromiseReject p.
Proof.
  induction l as [|kv l IH]; intros Hform Hpos; [done|].
  change (rejections message (kv :: l))
    with ([ClearTimeout (timeout kv.2)] ++ [Rejected (reject kv.2) message]
          ++ rejections message l) in Hpos.
  rewrite !settled_app in Hpos.
  destruct (Hform kv (list_elem_of_here _ _)) as [p' Hp'].
  rewrite Hp', settled_rejected in Hpos. case_decide as Hpp.
  - subst p'. exists kv. split; [apply list_elem_of_here|done].
  - destruct IH as (kv' & Hin & Hrej).
    + intros kv' Hin. apply Hform. by apply list_elem_of_further.
    + intros Hz. apply Hpos. rewrite Hz. done.
    + exists kv'. split; [by apply list_elem_of_further|done].
Qed.

Lemma Once_markSessionInactive w :
  Once w → Once (markSessionInactive w).
Proof.
  intros HO.
  destruct (markSessionInactive_effect w) as (Hs & Ht & Hm & Hnt & Hnp).
  rewrite (once_no_callback _ HO), app_nil_r in Ht.
  set (l := map_to_list (pendingByCallId (this w))) in *.
  assert (NoDup (l.*1)) as Hnd by apply NoDup_fst_map_to_list.
  assert (∀ kv, kv ∈ l → ∃ p', reject kv.2 = PromiseReject p'
                              ∧ timers w !! timeout kv.2 = Some (kv.1, PromiseReject p'))
    as Hl.
  { intros [x pd] Hin. apply elem_of_map_to_list in Hin.
    destruct (once_pending _ HO _ _ Hin) as (p & _ & H2 & H3). eauto. }
  assert (∀ kv, kv ∈ l → ∃ p', reject kv.2 = PromiseReject p') as Hform.
  { intros kv Hin. destruct (Hl kv Hin) as (p' & H & _). eauto. }
  assert (∀ kv kv', kv ∈ l → kv' ∈ l → reject kv.2 = reject kv'.2 → kv.1 = kv'.1)
    as Hinj.
  { intros k1 k2 H1 H2 Heq.
    destruct (Hl _ H1) as (p1 & Hr1 & Ht1). destruct (Hl _ H2) as (p2 & Hr2 & Ht2).
    rewrite Hr1, Hr2 in Heq. injection Heq as ->.
    pose proof (once_timers_inj _ HO _ _ _ _ _ Ht1 Ht2) as Hh.
    rewrite Hh, Ht2 in Ht1. by injection Ht1. }
  assert (∀ p h id, timers (markSessionInactive w) !! h = Some (id, PromiseReject p) →
                    settled p (rejections "Session ended" l) = 0) as Hkept.
  { intros p h id Hh. rewrite Hm in Hh. apply disarm_lookup_Some in Hh as [Hh Hnot].
    apply settled_rejections_none. intros kv Hin.
    destruct (Hl kv Hin) as (p' & Hr & Htm). exists p'. split; [done|].
    intros ->. apply (Hnot kv Hin). by eapply (once_timers_inj _ HO). }
  split; rewrite ?Hs, ?Ht, ?Hnt, ?Hnp;
    cbn [this set_onSessionEnd set_pendingByCallId set_expectedByName
         expectedByName pendingByCallId _onSessionEnd]; try done.
  - intros h id rej Hh. pose proof Hh as Hh'. rewrite Hm in Hh'.
    apply disarm_lookup_Some in Hh' as [Hh' _].
    destruct (once_timers _ HO _ _ _ Hh') as (Hlt & p & -> & Hp & Hz).
    split; [done|]. exists p. split_and!; [done..|].
    by rewrite settled_app, Hz, (Hkept p h id).
  - intros h h' id id' p Hh Hh'. rewrite Hm in Hh, Hh'.
    apply disarm_lookup_Some in Hh as [Hh _].
    apply disarm_lookup_Some in Hh' as [Hh' _]. by eapply (once_timers_inj _ HO).
  - intros p. rewrite settled_app.
    destruct (decide (settled p (rejections "Session ended" l) = 0)) as [->|Hpos].
    + pose proof (once_settled _ HO p). lia.
    + destruct (settled_rejections_pos p _ l Hform Hpos) as (kv & Hin & Hrej).
      rewrite (settled_rejections_one p _ l kv); try done.
      destruct (Hl kv Hin) as (p' & Hr & Htm). rewrite Hrej in Hr. injection Hr as <-.
      destruct (once_timers _ HO _ _ _ Htm) as (_ & p' & [= <-] & _ & ->). done.
  - intros p Hp. rewrite settled_app, (once_fresh _ HO) by done.
    apply settled_rejections_none. intros kv Hin.
    destruct (Hl kv Hin) as (p' & Hr & Htm). exists p'. split; [done|].
    destruct (once_timers _ HO _ _ _ Htm) as (_ & p'' & [= <-] & Hp' & _). lia.
Qed.

Lemma Once_run ops w : Once w → Once (run ops w).
Proof.
  revert w. induction ops as [|o ops IH]; intros w HO; [done|].
  unfold run. simpl. fold (run ops (step w o)). apply IH.
  destruct o; simpl.
  - by apply Once_registerExpected.
  - by apply Once_tool_call_route.
  - by apply Once_resolveToolCall.
  - by apply Once_markSessionInactive.
  - by apply Once_timer_fires.
Qed.

End BridgeOnce.

(** ** The tool-bridge state: every pair fires once *)

Section BridgeCallbacks.

Import ToolBridge.

(** C1, as the code has it. Take any sequence of [registerExpected],
    [registerMCPRequest] (through the bridge route), [resolveToolCall],
    [markSessionInactive] and timer expiries on a new state. No
    resolve/reject pair ever has both functions called, or one called
    twice. When the ids registered are non-empty and pairwise distinct,
    every pair handed in is in one of two situations: it is parked in the
    pending table with its timer armed and neither function called so
    far, or it is not parked and exactly one of its two functions has
    been called, once; and every timer started is armed for a pending
    entry, or has been cleared, or has expired. So once the pending table
    is empty, as it is after [markSessionInactive], every pair has fired
    exactly once, and, when no timer expired, every timer has been
    cleared. *)
Theorem callbacks_fire_once ops :
  let w := run ops new_world in
  (∀ p, (settled p (trace w) ≤ 1)%nat)
  ∧ (NoDup (expected_ids ops) →
     EmptyString ∉ expected_ids ops →
     (∀ p, p < nextPromise w →
        (parked w p ∧ settled p (trace w) = 0)
        ∨ (¬ parked w p ∧ settled p (trace w) = 1))
     ∧ (∀ h, SetTimeout h ∈ trace w →
          armed w h ∨ ClearTimeout h ∈ trace w ∨ TimerFired h ∈ trace w)
     ∧ (pendingByCallId (this w) = ∅ →
          fires_exactly_once w ∧ (no_expiry ops → timers_all_cleared w))).
Proof.
  intros w. split.
  { apply once_settled. by apply Once_run, Once_new. }
  intros Hnd Hne.
  destruct (Inv_run ops [] new_world Inv_new Hnd) as [seen HI].
  { intros id Hid. split; [apply not_elem_of_nil|]. by intros ->. }
  fold w in HI.
  assert (∀ p, parked w p → settled p (trace w) = 0) as Hparked.
  { intros p (id & pd & Hpd & H1 & H2 & H3).
    destruct (inv_pending _ _ HI _ _ Hpd) as (_ & p' & _ & Hshape & _ & Hzero).
    rewrite Hshape in H2. cbn in H2. by injection H2 as ->. }
  assert (∀ h, SetTimeout h ∈ trace w →
               armed w h ∨ ClearTimeout h ∈ trace w ∨ TimerFired h ∈ trace w) as Htimers.
  { intros h Hh. apply (inv_timer_set _ _ HI) in Hh.
    destruct (inv_timer_done _ _ HI h Hh) as [[[id rej] Harmed]|H]; [|by right].
    left. destruct (inv_timers _ _ HI _ _ _ Harmed) as (_ & pd & Hpd & Hto).
    exists id, pd. split_and!; [done..|]. by eexists. }
  split_and!.
  - intros p Hp. destruct (inv_settled _ _ HI p Hp) as [Hpk|Hone].
    + left. split; [done|]. by apply Hparked.
    + right. split; [|done]. intros Hpk. apply Hparked in Hpk. lia.
  - done.
  - intros Hempty. split.
    + intros p Hp. destruct (inv_settled _ _ HI p Hp) as [Hpk|Hone]; [|done].
      destruct Hpk as (id & pd & Hpd & _). by rewrite Hempty in Hpd.
    + intros Hops h Hh. destruct (Htimers h Hh) as [Harmed|[H|H]]; [|done|].
      * destruct Harmed as (id & pd & Hpd & _). by rewrite Hempty in Hpd.
      * exfalso. revert H. apply run_no_expiry; [done|apply not_elem_of_nil].
Qed.

Lemma callbacks_fire_once_witness :
  fires_exactly_once (run round_trip new_world)
  ∧ timers_all_cleared (run round_trip new_world).
Proof.
  destruct (callbacks_fire_once round_trip) as (_ & H).
  destruct H as (_ & _ & H).
  - compute_done.
  - compute_done.
  - destruct H as [Hfire Hclear].
    + vm_compute. reflexivity.
    + split; [exact Hfire|]. apply Hclear. intros h Hin.
      unfold round_trip in Hin.
      repeat (apply elem_of_cons in Hin as [Hin|Hin]; [discriminate Hin|]).
      by apply elem_of_nil in Hin.
Defined.

(** C1, counterexample. After [registerExpected] and one
    [registerMCPRequest] the call is parked: neither function of its
    promise has been called and its timer is armed, not cleared. *)
Lemma callbacks_parked_unfired :
  ¬ fires_exactly_once (run parked_call new_world)
  ∧ ¬ timers_all_cleared (run parked_call new_world).
Proof.
  split.
  - intros H. specialize (H 0). vm_compute in H.
    specialize (H (le_n 1)). discriminate H.
  - intros H. specialize (H 0).
    assert (SetTimeout 0 ∈ trace (run parked_call new_world)) as Hset
      by (vm_compute; apply list_elem_of_here).
    apply H in Hset. vm_compute in Hset. by apply list_elem_of_singleton in Hset.
Qed.

(** The trace of the round trip: the answered call is resolved, the call
    with nothing expected is rejected at once, the call still parked at
    the end of the session is rejected then. *)
Example round_trip_trace :
  trace (run round_trip new_world)
  = [SetTimeout 0;
     Rejected (PromiseReject 1) (no_expected_message "Read");
     ClearTimeout 0; Resolved (PromiseResolve 0) "FILE";
     SetTimeout 1;
     ClearTimeout 1; Rejected (PromiseReject 2) "Session ended"].
Proof. vm_compute. reflexivity. Qed.

(** Outside the hypotheses on the ids. An id of length zero is shifted
    from the queue and dropped by [if (!toolCallId) return]: neither
    function is ever called, and no timer is started. *)
Example empty_id_dropped :
  let w := run [RegisterExpected EmptyString "Read"; RegisterMCPRequest "Read";
                MarkSessionInactive] new_world in
  nextPromise w = 1 ∧ trace w = [] ∧ timers w = ∅.
Proof. vm_compute. done. Qed.

(** An id registered twice overwrites its first pending entry: the first
    pair is not called by [markSessionInactive] and its timer stays armed
    until it expires. *)
Example repeated_id_overwritten :
  let w := run [RegisterExpected "a" "R"; RegisterExpected "a" "R";
                RegisterMCPRequest "R"; RegisterMCPRequest "R";
                MarkSessionInactive] new_world in
  trace w = [SetTimeout 0; SetTimeout 1; ClearTimeout 1;
             Rejected (PromiseReject 1) "Session ended"]
  ∧ timers w !! 0 = Some ("a", PromiseReject 0)
  ∧ trace (timer_fires 0 w)
    = trace w ++ [TimerFired 0; Rejected (PromiseReject 0) "Tool call a timed out"].
Proof. vm_compute. done. Qed.

End BridgeCallbacks.

(** ** The tool-bridge state: teardown, lookups and round trips *)

Section BridgeLifecycle.

Import ToolBridge.

Implicit Types (w : World) (s : ToolBridgeState) (id nm : string)
  (pd : PendingMCPRequest).

Lemma world_eq w w' :
  this w = this w' → timers w = timers w' → nextTimer w = nextTimer w' →
  nextPromise w = nextPromise w' → trace w = trace w' → w = w'.
Proof. destruct w, w'. simpl. by intros -> -> -> -> ->. Qed.

(** What [cleanup] leaves behind, field by field. *)
Lemma cleanup_effect w :
  let l := map_to_list (pendingByCallId (this w)) in
  this (cleanup w)
  = set_onSessionEnd None (set_pendingByCallId ∅
      (set_expectedByName ∅ (set_sessionActive false (this w))))
  ∧ trace (cleanup w)
    = trace w ++ rejections "Session cleanup" l
        ++ match _onSessionEnd (this w) with
           | Some cb => [Invoked cb]
           | None => []
           end
  ∧ timers (cleanup w) = disarm l (timers w)
  ∧ nextTimer (cleanup w) = nextTimer w
  ∧ nextPromise (cleanup w) = nextPromise w.
Proof.
  intros l. unfold cleanup.
  set (w1 := set_this (set_sessionActive false) w).
  change (map_to_list (pendingByCallId (this w1))) with l.
  destruct (reject_all_spec "Session cleanup" l w1) as (H1 & H2 & H3 & H4 & H5).
  unfold fire_session_end.
  cbn [this set_this _onSessionEnd set_pendingByCallId set_expectedByName].
  rewrite H1. cbn [w1 this set_this _onSessionEnd set_sessionActive].
  destruct (_onSessionEnd (this w)) as [cb|] eqn:Hcb;
    cbn [this trace timers nextTimer nextPromise set_this emit];
    rewrite ?H1, ?H2, ?H3, ?H4, ?H5;
    cbn [w1 this trace timers nextTimer nextPromise set_this];
    rewrite <- ?app_assoc, ?app_nil_r; split_and!; try done.
  destruct (this w). unfold set_onSessionEnd, set_pendingByCallId,
    set_expectedByName, set_sessionActive. simpl in *. by subst.
Qed.

(** X1. [cleanup] tears the state down as [markSessionInactive] does:
    the two leave the same state and the same timers, and every entry
    that was pending has had its timer cleared and its [reject] called,
    with the message Session cleanup. *)
Theorem cleanup_drains w :
  this (cleanup w) = this (markSessionInactive w)
  ∧ timers (cleanup w) = timers (markSessionInactive w)
  ∧ hasPending (this (cleanup w)) = false
  ∧ ∃ evs, trace (cleanup w) = trace w ++ evs
      ∧ (∀ id pd, pendingByCallId (this w) !! id = Some pd →
           ClearTimeout (timeout pd) ∈ evs
           ∧ Rejected (reject pd) "Session cleanup" ∈ evs
           ∧ timers (cleanup w) !! timeout pd = None)
      ∧ (∀ cb, _onSessionEnd (this w) = Some cb → Invoked cb ∈ evs).
Proof.
  destruct (cleanup_effect w) as (Hs & Ht & Hm & _).
  destruct (markSessionInactive_effect w) as (Hs' & _ & Hm' & _).
  rewrite Hs, Hs', Ht, Hm, Hm'. split_and!; try done.
  eexists. split; [reflexivity|]. split.
  - intros id pd Hpd. apply elem_of_map_to_list in Hpd.
    destruct (rejections_in "Session cleanup" _ _ Hpd) as [Hc Hr].
    split_and!; [apply elem_of_app; by left..|].
    by apply (disarm_lookup_in _ _ (id, pd)).
  - intros cb ->. apply elem_of_app. right. apply list_elem_of_here.
Qed.

Lemma cleanup_drains_witness :
  let w := tool_call_route "Read"
             (set_this (registerExpected "tc1" "Read") new_world) in
  ∃ evs, trace (cleanup w) = trace w ++ evs
    ∧ Rejected (PromiseReject 0) "Session cleanup" ∈ evs.
Proof.
  intros w.
  destruct (cleanup_drains w) as (_ & _ & _ & evs & Htr & Hpend & _).
  exists evs. split; [exact Htr|].
  destruct (Hpend "tc1" (mkPending "tc1" (PromiseResolve 0) (PromiseReject 0) 0))
    as (_ & Hr & _).
  - vm_compute. reflexivity.
  - exact Hr.
Defined.

Lemma torn_down_fixed (t : World → World) w message :
  (∀ w0, let l := map_to_list (pendingByCallId (this w0)) in
     this (t w0)
     = set_onSessionEnd None (set_pendingByCallId ∅
         (set_expectedByName ∅ (set_sessionActive false (this w0))))
     ∧ trace (t w0)
       = trace w0 ++ rejections message l
           ++ match _onSessionEnd (this w0) with
              | Some cb => [Invoked cb]
              | None => []
              end
     ∧ timers (t w0) = disarm l (timers w0)
     ∧ nextTimer (t w0) = nextTimer w0
     ∧ nextPromise (t w0) = nextPromise w0) →
  pendingByCallId (this w) = ∅ → expectedByName (this w) = ∅ →
  _onSessionEnd (this w) = None → _sessionActive (this w) = false →
  t w = w.
Proof.
  intros Ht Hp He Hc Ha. destruct (Ht w) as (H1 & H2 & H3 & H4 & H5).
  rewrite Hp, map_to_list_empty in H2, H3. rewrite Hc in H2. simpl in H2, H3.
  rewrite app_nil_r in H2.
  apply world_eq; try done. rewrite H1. destruct (this w). simpl in *. by subst.
Qed.

(** X2. Tearing down twice is harmless: after [markSessionInactive] or
    [cleanup], a further [markSessionInactive] or [cleanup] changes
    nothing and calls no callback. *)
Theorem teardown_twice w :
  markSessionInactive (markSessionInactive w) = markSessionInactive w
  ∧ cleanup (markSessionInactive w) = markSessionInactive w
  ∧ markSessionInactive (cleanup w) = cleanup w
  ∧ cleanup (cleanup w) = cleanup w.
Proof.
  destruct (cleanup_effect w) as (Hc & _).
  destruct (markSessionInactive_effect w) as (Hm & _).
  split_and!.
  - apply (torn_down_fixed _ _ "Session ended"); [apply markSessionInactive_effect|..];
      by rewrite Hm.
  - apply (torn_down_fixed _ _ "Session cleanup"); [apply cleanup_effect|..];
      by rewrite Hm.
  - apply (torn_down_fixed _ _ "Session ended"); [apply markSessionInactive_effect|..];
      by rewrite Hc.
  - apply (torn_down_fixed _ _ "Session cleanup"); [apply cleanup_effect|..];
      by rewrite Hc.
Qed.

Lemma hasPendingToolCall_elem id s :
  hasPendingToolCall id s = true
  ↔ is_Some (pendingByCallId s !! id)
    ∨ ∃ nm queue, expectedByName s !! nm = Some queue ∧ id ∈ queue.
Proof.
  unfold hasPendingToolCall.
  destruct (pendingByCallId s !! id) as [pd|] eqn:Hpd.
  { split; [|done]. intros _. left. by eexists. }
  rewrite existsb_exists. split.
  - intros ([nm queue] & Hin & Hinc). right. exists nm, queue.
    apply list_elem_of_In, elem_of_map_to_list in Hin. split; [done|].
    unfold includes in Hinc. apply existsb_exists in Hinc as (x & Hx & Heq).
    apply String.eqb_eq in Heq. subst x. by apply list_elem_of_In.
  - intros [[pd Hsome]|(nm & queue & Hq & Hin)]; [done|].
    exists (nm, queue). split.
    + by apply list_elem_of_In, elem_of_map_to_list.
    + unfold includes. apply existsb_exists. exists id.
      split; [by apply list_elem_of_In|apply String.eqb_refl].
Qed.

(** X3. [hasPendingToolCall id] is true exactly when [id] is a key of the
    pending table or occurs in the queue of some tool; so an id that is
    registered is found at once, and a non-empty id stays found when the
    bridge route moves it from the head of its queue to the pending
    table. *)
Theorem hasPendingToolCall_tracks id s :
  (hasPendingToolCall id s = true
   ↔ is_Some (pendingByCallId s !! id)
     ∨ ∃ nm queue, expectedByName s !! nm = Some queue ∧ id ∈ queue)
  ∧ (∀ nm, hasPendingToolCall id (registerExpected id nm s) = true)
  ∧ (∀ nm queue w,
       this w = s → id ≠ EmptyString →
       expectedByName s !! nm = Some (id :: queue) →
       hasPendingToolCall id s = true
       ∧ hasPendingToolCall id (this (tool_call_route nm w)) = true).
Proof.
  split_and!.
  - apply hasPendingToolCall_elem.
  - intros nm. apply hasPendingToolCall_elem. right.
    exists nm, (default [] (expectedByName s !! nm) ++ [id]).
    split; [apply registerExpected_queue|].
    apply elem_of_app. right. apply list_elem_of_here.
  - intros nm queue w <- Hne Hq. split.
    + apply hasPendingToolCall_elem. right. exists nm, (id :: queue).
      split; [done|apply list_elem_of_here].
    + destruct (tool_call_route_cases nm w)
        as [[[Hq'|Hq'] _]|[(queue' & Hq' & _)|(id' & queue' & Hq' & _ & ->)]];
        try congruence.
      rewrite Hq in Hq'. injection Hq' as <- <-.
      apply hasPendingToolCall_elem. left.
      cbn [this pendingByCallId set_pendingByCallId].
      rewrite lookup_insert_eq. by eexists.
Qed.

Lemma hasPendingToolCall_tracks_witness :
  let w := set_this (registerExpected "tc1" "Read") new_world in
  hasPendingToolCall "tc1" (this (tool_call_route "Read" w)) = true.
Proof.
  intros w.
  destruct (hasPendingToolCall_tracks "tc1" (this w)) as (_ & _ & H).
  destruct (H "Read" [] w) as [_ Hroute]; [reflexivity|discriminate|reflexivity|].
  exact Hroute.
Defined.

(** X4. A tool call is resolved at most once: whatever the first
    [resolveToolCall id] did, a second one for the same id returns false
    and changes nothing; and an id that is not pending is never
    resolved. *)
Theorem resolveToolCall_once id result result' w :
  (pendingByCallId (this w) !! id = None → resolveToolCall id result w = (false, w))
  ∧ resolveToolCall id result' (resolveToolCall id result w).2
    = (false, (resolveToolCall id result w).2).
Proof.
  split.
  - intros Hnone. unfold resolveToolCall. by rewrite Hnone.
  - unfold resolveToolCall at 1.
    assert (pendingByCallId (this (resolveToolCall id result w).2) !! id = None) as ->;
      [|done].
    unfold resolveToolCall.
    destruct (pendingByCallId (this w) !! id) as [pd|] eqn:Hpd; simpl; [|done].
    apply lookup_delete_eq.
Qed.

Lemma resolveToolCall_once_witness :
  resolveToolCall "tc9" "late" new_world = (false, new_world).
Proof.
  apply (proj1 (resolveToolCall_once "tc9" "late" "late" new_world)).
  reflexivity.
Defined.

End BridgeLifecycle.

(** ** The tool-bridge state: round trip, timeout and rendezvous *)

Section BridgeRoundTrip.

Import ToolBridge.

Implicit Types (w : World) (s : ToolBridgeState) (id nm : string)
  (pd : PendingMCPRequest).

(** The route on a queue that holds the one id [id]. *)
Lemma tool_call_route_single id nm w :
  id ≠ EmptyString →
  expectedByName (this w) !! nm = None →
  tool_call_route nm (set_this (registerExpected id nm) w)
  = mkWorld
      (set_pendingByCallId
         (<[id := mkPending id (PromiseResolve (nextPromise w))
                   (PromiseReject (nextPromise w)) (nextTimer w)]>
            (pendingByCallId (this w)))
         (this w))
      (<[nextTimer w := (id, PromiseReject (nextPromise w))]> (timers w))
      (S (nextTimer w)) (S (nextPromise w))
      (trace w ++ [SetTimeout (nextTimer w)]).
Proof.
  intros Hne Hq.
  destruct (tool_call_route_cases nm (set_this (registerExpected id nm) w))
    as [[[Hq'|Hq'] _]|[(queue' & Hq' & _)|(id' & queue' & Hq' & _ & ->)]];
    cbn [this set_this] in Hq'; rewrite registerExpected_queue, Hq in Hq';
    cbn [default app] in Hq'; try congruence.
  injection Hq' as <- <-.
  cbn [this set_this timers nextTimer nextPromise trace].
  apply world_eq; cbn [this timers nextTimer nextPromise trace]; try done.
  assert (shifted nm [] (expectedByName (registerExpected id nm (this w)))
          = expectedByName (this w)) as Hsh.
  { unfold shifted, registerExpected. rewrite Hq.
    cbn [expectedByName set_expectedByName].
    rewrite insert_insert_eq, delete_insert_eq. by apply delete_id. }
  unfold registerExpected in *. rewrite Hq in *.
  destruct (this w) as [c e pe r sd cb a he].
  unfold set_pendingByCallId, set_expectedByName in *.
  cbn [cachedTools expectedByName pendingByCallId reply streamingDone
       _onSessionEnd _sessionActive _hadError] in *.
  by rewrite Hsh.
Qed.

(** X5. The round trip of one tool call. On a state with no queue for
    [nm] and no pending entry for the non-empty id [id], with the next
    timer handle unused: [registerExpected id nm], then the bridge route
    for [nm], then [resolveToolCall id result] returns true, hands
    [result] to the resolve function of the promise of that route call
    after clearing its timer, and leaves the state and the timers exactly
    as they were. *)
Theorem tool_call_round_trip id nm result w :
  id ≠ EmptyString →
  expectedByName (this w) !! nm = None →
  pendingByCallId (this w) !! id = None →
  timers w !! nextTimer w = None →
  let w1 := tool_call_route nm (set_this (registerExpected id nm) w) in
  let r := resolveToolCall id result w1 in
  r.1 = true
  ∧ this r.2 = this w
  ∧ timers r.2 = timers w
  ∧ trace r.2 = trace w ++ [SetTimeout (nextTimer w); ClearTimeout (nextTimer w);
                            Resolved (PromiseResolve (nextPromise w)) result].
Proof.
  intros Hne Hq Hp Ht w1 r. subst r w1.
  rewrite tool_call_route_single by done.
  unfold resolveToolCall. cbn [this pendingByCallId set_pendingByCallId].
  rewrite lookup_insert_eq.
  do 3 (unfold emit, set_this, clearTimeout;
        cbn [fst snd this timers nextTimer nextPromise trace timeout resolve
             pendingByCallId set_pendingByCallId]).
  split_and!; [done| | |by rewrite <- !app_assoc].
  - destruct (this w) as [c e pe r sd cb a he].
    unfold set_pendingByCallId.
    cbn [cachedTools expectedByName pendingByCallId reply streamingDone
         _onSessionEnd _sessionActive _hadError] in *.
    f_equal. rewrite delete_insert_eq. by apply delete_id.
  - rewrite delete_insert_eq. by apply delete_id.
Qed.

Lemma tool_call_round_trip_witness :
  (resolveToolCall "tc1" "FILE"
     (tool_call_route "Read" (set_this (registerExpected "tc1" "Read") new_world))).1
  = true.
Proof.
  apply (tool_call_round_trip "tc1" "Read" "FILE" new_world);
    [discriminate|reflexivity..].
Defined.

(** X6. The timeout of a promoted call. When the head [id] of the queue
    of [nm] is non-empty, the route arms a timer; once it expires the
    entry is gone from the pending table, the reject function of the
    route's promise has been called with the message
    Tool call <id> timed out, a result that arrives later is not
    delivered ([resolveToolCall] returns false and changes nothing), and
    a second expiry does nothing. *)
Theorem timeout_evicts id nm queue w :
  id ≠ EmptyString →
  expectedByName (this w) !! nm = Some (id :: queue) →
  let h := nextTimer w in
  let w1 := tool_call_route nm w in
  let w2 := timer_fires h w1 in
  trace w2 = trace w ++ [SetTimeout h; TimerFired h;
                         Rejected (PromiseReject (nextPromise w))
                                  ("Tool call " +:+ id +:+ " timed out")]
  ∧ pendingByCallId (this w2) !! id = None
  ∧ timers w2 !! h = None
  ∧ (∀ result, resolveToolCall id result w2 = (false, w2))
  ∧ timer_fires h w2 = w2.
Proof.
  intros Hne Hq h w1 w2. subst w2 w1 h.
  destruct (tool_call_route_cases nm w)
    as [[[Hq'|Hq'] _]|[(queue' & Hq' & _)|(id' & queue' & Hq' & _ & ->)]];
    try congruence.
  rewrite Hq in Hq'. injection Hq' as <- <-.
  set (p := nextPromise w). set (h := nextTimer w).
  set (pend := <[id := mkPending id (PromiseResolve p) (PromiseReject p) h]>
                 (pendingByCallId (this w))).
  set (s1 := set_expectedByName (shifted nm queue (expectedByName (this w))) (this w)).
  assert (timer_fires h
            (mkWorld (set_pendingByCallId pend s1)
                     (<[h := (id, PromiseReject p)]> (timers w)) (S h) (S p)
                     (trace w ++ [SetTimeout h]))
          = mkWorld (set_pendingByCallId (delete id pend) s1)
                    (delete h (<[h := (id, PromiseReject p)]> (timers w))) (S h) (S p)
                    (trace w ++ [SetTimeout h; TimerFired h;
                                 Rejected (PromiseReject p)
                                          ("Tool call " +:+ id +:+ " timed out")]))
    as ->.
  { unfold timer_fires. cbn [timers]. rewrite lookup_insert_eq.
    unfold emit, set_this. cbn [this timers nextTimer nextPromise trace].
    apply world_eq; cbn [this timers nextTimer nextPromise trace]; try done.
    by rewrite <- !app_assoc. }
  cbn [this timers trace pendingByCallId set_pendingByCallId].
  split_and!.
  - done.
  - apply lookup_delete_eq.
  - apply lookup_delete_eq.
  - intros result. unfold resolveToolCall.
    cbn [this pendingByCallId set_pendingByCallId]. by rewrite lookup_delete_eq.
  - unfold timer_fires. cbn [timers]. by rewrite lookup_delete_eq.
Qed.

Lemma timeout_evicts_witness :
  let w := set_this (registerExpected "tc1" "Read") new_world in
  trace (timer_fires 0 (tool_call_route "Read" w))
  = [SetTimeout 0; TimerFired 0;
     Rejected (PromiseReject 0) "Tool call tc1 timed out"].
Proof.
  intros w.
  destruct (timeout_evicts "tc1" "Read" [] w) as (Ht & _).
  - discriminate.
  - reflexivity.
  - exact Ht.
Defined.

(** X7. The streaming-done rendezvous is single shot.
    [notifyStreamingDone] with no waiter does nothing; after
    [waitForStreamingDone] it calls the waiter's resolve function once
    and empties the slot, so a second notify does nothing; and when
    [waitForStreamingDone] is called twice before a notify, only the
    second waiter is called: the first one is overwritten. *)
Theorem streamingDone_single_shot w :
  (streamingDone (this w) = None → notifyStreamingDone w = w)
  ∧ notifyStreamingDone (notifyStreamingDone w) = notifyStreamingDone w
  ∧ trace (notifyStreamingDone (waitForStreamingDone w))
    = trace w ++ [Invoked (PromiseResolve (nextPromise w))]
  ∧ streamingDone (this (notifyStreamingDone (waitForStreamingDone w))) = None
  ∧ trace (notifyStreamingDone (waitForStreamingDone (waitForStreamingDone w)))
    = trace w ++ [Invoked (PromiseResolve (S (nextPromise w)))].
Proof.
  split_and!.
  - intros Hnone. unfold notifyStreamingDone. by rewrite Hnone.
  - unfold notifyStreamingDone at 2 3.
    destruct (streamingDone (this w)) as [cb|] eqn:Hcb.
    + unfold notifyStreamingDone. reflexivity.
    + unfold notifyStreamingDone. by rewrite Hcb.
  - reflexivity.
  - reflexivity.
  - reflexivity.
Qed.

Lemma streamingDone_single_shot_witness :
  notifyStreamingDone new_world = new_world.
Proof.
  apply (proj1 (streamingDone_single_shot new_world)). reflexivity.
Defined.

End BridgeRoundTrip.

(** ** The tool-bridge state: what every reachable state satisfies *)

Section BridgeReachable.

Import ToolBridge.

Implicit Types (w : World) (s : ToolBridgeState) (id nm : string).

Lemma shifted_lookup_nonempty nm queue (m : gmap string (list string)) q' :
  shifted nm queue m !! nm = Some q' → q' = queue ∧ queue ≠ [].
Proof.
  unfold shifted. destruct queue as [|x queue].
  - by rewrite lookup_delete_eq.
  - rewrite lookup_insert_eq. by intros [= <-].
Qed.

Lemma step_no_empty_queue w o :
  (∀ nm q, expectedByName (this w) !! nm = Some q → q ≠ []) →
  ∀ nm q, expectedByName (this (step w o)) !! nm = Some q → q ≠ [].
Proof.
  intros Hw nm q. destruct o as [id nm0|nm0|id result| |h]; simpl.
  - destruct (decide (nm0 = nm)) as [->|Hn].
    + rewrite registerExpected_queue. intros [= <-]. by destruct (default _ _).
    + rewrite registerExpected_other by done. apply Hw.
  - destruct (tool_call_route_cases nm0 w)
      as [[_ ->]|[(queue & _ & ->)|(id & queue & _ & _ & ->)]]; cbn; [apply Hw|..].
    + intros Hq. destruct (decide (nm = nm0)) as [->|Hn].
      * by apply shifted_lookup_nonempty in Hq as [-> ?].
      * apply shifted_lookup in Hq as [[? _]|[_ Hq]]; [done|]. by eapply Hw.
    + intros Hq. destruct (decide (nm = nm0)) as [->|Hn].
      * by apply shifted_lookup_nonempty in Hq as [-> ?].
      * apply shifted_lookup in Hq as [[? _]|[_ Hq]]; [done|]. by eapply Hw.
  - unfold resolveToolCall. destruct (pendingByCallId (this w) !! id); cbn; apply Hw.
  - destruct (markSessionInactive_effect w) as (-> & _). by cbn.
  - unfold timer_fires. destruct (timers w !! h) as [[x rej]|]; cbn; apply Hw.
Qed.

Lemma run_no_empty_queue ops w :
  (∀ nm q, expectedByName (this w) !! nm = Some q → q ≠ []) →
  ∀ nm q, expectedByName (this (run ops w)) !! nm = Some q → q ≠ [].
Proof.
  revert w. induction ops as [|o ops IH]; intros w Hw; [done|].
  unfold run. simpl. fold (run ops (step w o)). apply IH.
  by apply step_no_empty_queue.
Qed.

Lemma size_pos_iff {V} (m : gmap string V) :
  (0 <? size m)%nat = true ↔ ∃ k, is_Some (m !! k).
Proof.
  rewrite Nat.ltb_lt. split.
  - intros Hpos. destruct (decide (m = ∅)) as [->|Hne].
    + rewrite map_size_empty in Hpos. lia.
    + apply map_choose in Hne as (k & v & Hk). exists k. by eexists.
  - intros (k & v & Hk). destruct (decide (size m = 0)) as [Hz|Hz]; [|lia].
    apply map_size_empty_iff in Hz. subst m. by rewrite lookup_empty in Hk.
Qed.

(** X8. After any sequence of operations on a new state, the map of
    expected calls holds no empty queue: a queue is removed when its last
    id is shifted. Hence a tool is expected exactly when it has an entry
    in the map, and [hasPending], which tests the sizes of the two maps,
    is true exactly when some call is pending or some tool is
    expected. *)
Theorem hasPending_reachable ops :
  let s := this (run ops new_world) in
  (∀ nm queue, expectedByName s !! nm = Some queue → queue ≠ [])
  ∧ (∀ nm, hasExpectedTool nm s = true ↔ is_Some (expectedByName s !! nm))
  ∧ (hasPending s = true
     ↔ (∃ id, is_Some (pendingByCallId s !! id))
       ∨ (∃ nm, hasExpectedTool nm s = true)).
Proof.
  intros s.
  assert (∀ nm q, expectedByName s !! nm = Some q → q ≠ []) as Hne.
  { apply run_no_empty_queue. intros nm q Hq.
    unfold new_world, new_state in Hq. cbn [this expectedByName] in Hq.
    by rewrite lookup_empty in Hq. }
  assert (∀ nm, hasExpectedTool nm s = true ↔ is_Some (expectedByName s !! nm)) as Hexp.
  { intros nm. unfold hasExpectedTool.
    destruct (expectedByName s !! nm) as [[|x q]|] eqn:Hq.
    - by destruct (Hne _ _ Hq).
    - split; [by eexists|done].
    - split; [done|]. by intros [? ?]. }
  split_and!; [done..|].
  unfold hasPending. rewrite orb_true_iff, !size_pos_iff.
  split; (intros [H|[nm H]]; [by left|right; exists nm; by apply Hexp]).
Qed.

Lemma hasPending_reachable_witness :
  hasPending (this (run parked_call new_world)) = true.
Proof.
  apply (proj2 (proj2 (hasPending_reachable parked_call))).
  left. exists "tc1". vm_compute. by eexists.
Defined.

(** X9. An id is never queued and pending at once. After any sequence of
    operations on a new state whose registered ids are non-empty and
    pairwise distinct, an id that sits in the queue of a tool is not a
    key of the pending table, occurs once in that queue, and occurs in no
    other queue. *)
Theorem queued_not_pending ops :
  NoDup (expected_ids ops) →
  EmptyString ∉ expected_ids ops →
  let s := this (run ops new_world) in
  ∀ nm queue id,
    expectedByName s !! nm = Some queue → id ∈ queue →
    pendingByCallId s !! id = None
    ∧ NoDup queue
    ∧ ∀ nm' queue', nm' ≠ nm → expectedByName s !! nm' = Some queue' → id ∉ queue'.
Proof.
  intros Hnd Hne s nm queue id Hq Hin.
  destruct (Inv_run ops [] new_world Inv_new Hnd) as [seen HI].
  { intros x Hx. split; [apply not_elem_of_nil|]. by intros ->. }
  fold s in HI. split_and!.
  - by destruct (inv_queued _ _ HI _ _ _ Hq Hin) as (_ & _ & ?).
  - by eapply inv_queue_nodup.
  - intros nm' queue' Hn Hq'.
    by apply (inv_queue_disjoint _ _ HI nm nm' queue queue' id (not_eq_sym Hn)).
Qed.

Lemma queued_not_pending_witness :
  pendingByCallId
    (this (run [RegisterExpected "tc1" "Read"; RegisterExpected "tc2" "Read";
                RegisterMCPRequest "Read"] new_world)) !! "tc2" = None.
Proof.
  refine (proj1 (queued_not_pending
                   [RegisterExpected "tc1" "Read"; RegisterExpected "tc2" "Read";
                    RegisterMCPRequest "Read"] _ _ "Read" ["tc2"] "tc2" _ _)).
  - compute_done.
  - compute_done.
  - vm_compute. reflexivity.
  - apply list_elem_of_here.
Defined.

End BridgeReachable.

(** ** The session configuration: allowlists and servers *)

Section SessionConfigFields.

Import SessionConfig SessionFields.

Lemma hook_allow_iff hasToolBridge config toolName :
  onPreToolUse hasToolBridge config toolName = allow
  ↔ (hasToolBridge = Some true
     ∧ JSString.startsWith toolName "xcode-bridge-" = true)
    ∨ in_some_allowlist config toolName.
Proof.
  unfold onPreToolUse, in_some_allowlist.
  destruct (default false hasToolBridge && JSString.startsWith _ _) eqn:Hb.
  { apply andb_true_iff in Hb as [Hh Hp]. split; [|done]. intros _. left.
    split; [|done]. by destruct hasToolBridge as [[]|]. }
  assert (¬ (hasToolBridge = Some true
             ∧ JSString.startsWith toolName "xcode-bridge-" = true)) as Hnb.
  { intros [-> Hp]. simpl in Hb. congruence. }
  destruct (includes _ "*" || includes _ toolName) eqn:Hc.
  { apply includes_listed in Hc. split; [|done]. intros _. right. by left. }
  assert (¬ listed (allowedCliTools config) toolName) as Hnc.
  { intros Hl%includes_listed. congruence. }
  destruct (some_server_allows _ toolName) eqn:Hs.
  { apply some_server_allows_iff in Hs. split; [|done]. intros _. right. by right. }
  assert (¬ ∃ serverName server, (serverName, server) ∈ mcpServers config
            ∧ listed (default [] (allowedTools server)) toolName) as Hns.
  { intros Hl%some_server_allows_iff. congruence. }
  split; [done|]. tauto.
Qed.

(** X10. Every tool offered to the session in [availableTools] passes
    the hook; and the field is present only without the bridge, holding
    the whole non-empty [allowedCliTools]. *)
Theorem availableTools_allowed hasToolBridge config tools :
  availableTools hasToolBridge config = Some tools →
  tools = allowedCliTools config
  ∧ tools ≠ []
  ∧ hasToolBridge ≠ Some true
  ∧ ∀ toolName, toolName ∈ tools →
      onPreToolUse hasToolBridge config toolName = allow.
Proof.
  unfold availableTools.
  destruct (negb (default false hasToolBridge)
            && (0 <? length (allowedCliTools config))%nat) eqn:Hc; [|done].
  intros [= <-]. apply andb_true_iff in Hc as [Hb Hl].
  split_and!; [done| | |].
  - intros Heq. rewrite Heq in Hl. done.
  - intros ->. done.
  - intros toolName Hin. apply hook_allow_iff. right. left. by right.
Qed.

Lemma availableTools_allowed_witness :
  onPreToolUse None (mkConfig [] ["glob"; "grep"]) "grep" = allow.
Proof.
  destruct (availableTools_allowed None (mkConfig [] ["glob"; "grep"]) ["glob"; "grep"])
    as (_ & _ & _ & H).
  - reflexivity.
  - apply H. apply list_elem_of_further, list_elem_of_here.
Defined.

(** X11. Widening the allowlists, or turning the bridge on, never turns
    an allow into a deny. *)
Theorem onPreToolUse_monotone hasToolBridge hasToolBridge' config config' toolName :
  grants_more config config' →
  (hasToolBridge = Some true → hasToolBridge' = Some true) →
  onPreToolUse hasToolBridge config toolName = allow →
  onPreToolUse hasToolBridge' config' toolName = allow.
Proof.
  intros [Hcli Hsrv] Hb. rewrite !hook_allow_iff.
  intros [[Hh Hp]|[[Hstar|Hin]|(k & srv & Hks & [Hstar|Hin])]].
  - left. split; [by apply Hb|done].
  - right. left. left. by apply Hcli.
  - right. left. right. by apply Hcli.
  - right. right. destruct (Hsrv _ _ Hks) as (k' & srv' & Hks' & Hsub).
    exists k', srv'. split; [done|]. left. by apply Hsub.
  - right. right. destruct (Hsrv _ _ Hks) as (k' & srv' & Hks' & Hsub).
    exists k', srv'. split; [done|]. right. by apply Hsub.
Qed.

Lemma onPreToolUse_monotone_witness :
  onPreToolUse (Some true)
    (mkConfig [("xcode", mkServer "node" [] (Some ["XcodeBuild"]))] ["glob"; "grep"])
    "glob" = allow.
Proof.
  apply (onPreToolUse_monotone None (Some true) (mkConfig [] ["glob"])
           (mkConfig [("xcode", mkServer "node" [] (Some ["XcodeBuild"]))] ["glob"; "grep"])
           "glob").
  - split.
    + intros t Ht. apply list_elem_of_singleton in Ht as ->. apply list_elem_of_here.
    + intros k server Hin. by apply elem_of_nil in Hin.
  - discriminate.
  - reflexivity.
Defined.

Lemma spread_servers_lookup entries k e :
  spread_servers entries !! k = Some e →
  ∃ server, e = Configured server ["*"] ∧ (k, server) ∈ entries.
Proof.
  unfold spread_servers.
  assert (∀ (m : gmap string SessionServer),
            foldl (fun m kv => <[kv.1 := Configured kv.2 ["*"]]> m) m entries !! k = Some e →
            m !! k = Some e
            ∨ ∃ server, e = Configured server ["*"] ∧ (k, server) ∈ entries) as Hgen.
  { induction entries as [|[k0 srv0] entries IH]; intros m Hm; simpl in Hm; [by left|].
    apply IH in Hm as [Hm|(server & -> & Hin)].
    - apply lookup_insert_Some in Hm as [[<- <-]|[_ Hm]]; [|by left].
      right. exists srv0. split; [done|apply list_elem_of_here].
    - right. exists server. split; [done|by apply list_elem_of_further]. }
  intros H. apply Hgen in H as [H|H]; [|done]. by rewrite lookup_empty in H.
Qed.

Lemma spread_servers_dom entries k :
  is_Some (spread_servers entries !! k) ↔ ∃ server, (k, server) ∈ entries.
Proof.
  split.
  - intros [e He]. apply spread_servers_lookup in He as (server & _ & Hin). eauto.
  - unfold spread_servers.
    assert (∀ (m : gmap string SessionServer),
              is_Some (m !! k) ∨ (∃ server, (k, server) ∈ entries) →
              is_Some (foldl (fun m kv => <[kv.1 := Configured kv.2 ["*"]]> m) m entries
                       !! k)) as Hgen.
    { induction entries as [|[k0 srv0] entries IH]; intros m Hm; simpl.
      - destruct Hm as [Hm|(server & Hin)]; [done|]. by apply elem_of_nil in Hin.
      - apply IH. destruct Hm as [Hm|(server & Hin)].
        + left. rewrite lookup_insert. case_decide; [by eexists|done].
        + apply elem_of_cons in Hin as [[= -> ->]|Hin]; [|by eauto].
          left. rewrite lookup_insert_eq. by eexists. }
    intros H. apply Hgen. by right.
Qed.

(** X12. The servers handed to the session. Every entry carries
    [tools = ["*"]], whatever [allowedTools] says: the allowlists are
    enforced by the hook alone. The names are those configured, plus
    xcode-bridge when the bridge is on; every entry other than the
    bridge's is a configured server; and with the bridge on the entry
    xcode-bridge is the bridge URL, even when a server of that name is
    configured. *)
Theorem session_mcpServers_spec hasToolBridge port conversationId config :
  let servers := session_mcpServers hasToolBridge port conversationId config in
  (∀ k e, servers !! k = Some e → server_tools e = ["*"])
  ∧ (∀ k, is_Some (servers !! k)
          ↔ (∃ server, (k, server) ∈ mcpServers config)
            ∨ (hasToolBridge = Some true ∧ k = "xcode-bridge"))
  ∧ (∀ k e, servers !! k = Some e →
        (hasToolBridge = Some true ∧ k = "xcode-bridge")
        ∨ ∃ server, e = Configured server ["*"] ∧ (k, server) ∈ mcpServers config)
  ∧ (hasToolBridge = Some true →
       servers !! "xcode-bridge"
       = Some (Http ("http://127.0.0.1:" +:+ String_of_port (default 8080%N port)
                     +:+ "/mcp/" +:+ default EmptyString conversationId) ["*"])).
Proof.
  intros servers. subst servers. unfold session_mcpServers.
  destruct hasToolBridge as [[|]|]; cbv [default from_option id].
  - split_and!.
    + intros k e He. apply lookup_insert_Some in He as [[_ <-]|[_ He]]; [done|].
      by apply spread_servers_lookup in He as (server & -> & _).
    + intros k. rewrite lookup_insert. case_decide as Hk.
      * subst k. split; [by right|by eexists].
      * rewrite spread_servers_dom. split; [by left|]. by intros [H|[_ ->]].
    + intros k e He. apply lookup_insert_Some in He as [[<- _]|[_ He]]; [by left|].
      right. by apply spread_servers_lookup.
    + intros _. by rewrite lookup_insert_eq.
  - split_and!; [| | |done].
    + intros k e He. by apply spread_servers_lookup in He as (server & -> & _).
    + intros k. rewrite spread_servers_dom. split; [by left|]. by intros [H|[? _]].
    + intros k e He. right. by apply spread_servers_lookup.
  - split_and!; [| | |done].
    + intros k e He. by apply spread_servers_lookup in He as (server & -> & _).
    + intros k. rewrite spread_servers_dom. split; [by left|]. by intros [H|[? _]].
    + intros k e He. right. by apply spread_servers_lookup.
Qed.

Lemma session_mcpServers_spec_witness :
  session_mcpServers (Some true) (Some 9090%N) (Some "conv-1")
    (mkConfig [("xcode-bridge", mkServer "node" [] None)] []) !! "xcode-bridge"
  = Some (Http "http://127.0.0.1:9090/mcp/conv-1" ["*"]).
Proof.
  refine (proj2 (proj2 (proj2 (session_mcpServers_spec (Some true) (Some 9090%N)
            (Some "conv-1") (mkConfig [("xcode-bridge", mkServer "node" [] None)] []))))
            _).
  reflexivity.
Defined.

End SessionConfigFields.

(** ** The logger *)

Section LoggerFacts.

(** X13. [truncate] never returns more than [maxLen] code units and the
    ellipsis; a string that fits is returned as it is, a longer one keeps
    its first [maxLen] code units; and truncating the result again
    changes nothing. *)
Theorem truncate_spec {U V : Type} (ellipsis : U)
    (JSON_stringify : V → option (list U)) value maxLen r :
  Logger.truncate ellipsis JSON_stringify value maxLen = Some r →
  (length r ≤ S maxLen)%nat
  ∧ Logger.truncate ellipsis JSON_stringify (inl r) maxLen = Some r
  ∧ ∀ s, value = inl s →
      take maxLen r = take maxLen s
      ∧ ((length s ≤ maxLen)%nat → r = s)
      ∧ ((maxLen < length s)%nat → r = take maxLen s ++ [ellipsis]).
Proof.
  unfold Logger.truncate.
  set (str := match value with inl s => Some s | inr v => JSON_stringify v end).
  assert (∀ s, value = inl s → str = Some s) as Hstr by (by intros s ->).
  destruct str as [s0|]; [|done].
  destruct (Nat.leb_spec (length s0) maxLen) as [Hle|Hgt]; intros [= <-].
  - split_and!.
    + lia.
    + apply Nat.leb_le in Hle. by rewrite Hle.
    + intros s Hs. apply Hstr in Hs as [= <-]. split_and!; [done..|lia].
  - assert (length (take maxLen s0) = maxLen) as Hlen by (rewrite length_take; lia).
    split_and!.
    + rewrite length_app, Hlen. simpl. lia.
    + assert ((length (take maxLen s0 ++ [ellipsis]) <=? maxLen)%nat = false) as ->.
      { apply Nat.leb_gt. rewrite length_app, Hlen. simpl. lia. }
      by rewrite take_app_length'.
    + intros s Hs. apply Hstr in Hs as [= <-]. split_and!; [|lia|done].
      by rewrite take_app_length'.
Qed.

Lemma truncate_spec_witness :
  Logger.truncate "."%char (fun _ : unit => None)
    (inl ["a"; "b"; "c"; "d"; "e"; "."]%char) 5
  = Some ["a"; "b"; "c"; "d"; "e"; "."]%char.
Proof.
  refine (proj1 (proj2 (truncate_spec "."%char (fun _ : unit => None)
            (inl ["a"; "b"; "c"; "d"; "e"; "f"; "g"]%char) 5 _ _))).
  reflexivity.
Defined.

(** X14. Verbosity is monotone. What a logger writes, a logger of a
    level of higher or equal priority writes too, word for word; the
    level none writes nothing; the levels debug and all write the same;
    and each message that is written starts with the bracketed name of
    its method. *)
Theorem logger_levels_nested level level' m msg out :
  (Logger.LEVEL_PRIORITY level ≤ Logger.LEVEL_PRIORITY level')%nat →
  Logger.write level m msg = Some out →
  Logger.write level' m msg = Some out
  ∧ level ≠ Logger.none
  ∧ Logger.write Logger.all m msg = Logger.write Logger.debug m msg
  ∧ ∃ tag, out.2 = tag +:+ msg
           ∧ tag = match m with
                   | Logger.error_ => "[ERROR] "
                   | Logger.warn_ => "[WARN] "
                   | Logger.info_ => "[INFO] "
                   | Logger.debug_ => "[DEBUG] "
                   end.
Proof.
  intros Hle Hw. split_and!.
  - destruct level, level', m; simpl in *; try done; lia.
  - intros ->. by destruct m.
  - by destruct m.
  - destruct level, m; simpl in Hw; try done; injection Hw as <-; by eexists.
Qed.

Lemma logger_levels_nested_witness :
  Logger.write Logger.debug Logger.warn_ "slow"
  = Some (Logger.console_warn, "[WARN] slow").
Proof.
  refine (proj1 (logger_levels_nested Logger.info Logger.debug Logger.warn_ "slow"
                   (Logger.console_warn, "[WARN] slow") _ _)).
  - simpl. lia.
  - reflexivity.
Defined.

End LoggerFacts.

(** ** The prompt *)

Section PromptFacts.

Context {Content : Type}
  (extractContentText : option Content → string)
  (replace_fences : list string → string → string).

Local Abbreviation parts := (Prompt.parts_of extractContentText replace_fences).
Local Abbreviation prompt := (Prompt.formatPrompt extractContentText replace_fences).

Lemma string_app_assoc (a b c : string) : (a +:+ b) +:+ c = a +:+ (b +:+ c).
Proof.
  induction a as [|x a IH]; [done|].
  change (String x ((a +:+ b) +:+ c) = String x (a +:+ (b +:+ c))). by rewrite IH.
Qed.

Lemma concat_app_cons sep a (x : string) b :
  String.concat sep (a ++ x :: b)
  = match a with
    | [] => String.concat sep (x :: b)
    | _ => String.concat sep a +:+ sep +:+ String.concat sep (x :: b)
    end.
Proof.
  induction a as [|y a IH]; [done|].
  destruct a as [|z a].
  - simpl. done.
  - change (String.concat sep ((y :: z :: a) ++ x :: b))
      with (y +:+ sep +:+ String.concat sep ((z :: a) ++ x :: b)).
    rewrite IH.
    change (String.concat sep (y :: z :: a))
      with (y +:+ sep +:+ String.concat sep (z :: a)).
    by rewrite !string_app_assoc.
Qed.

(** X15. System and developer messages, and messages without a role,
    leave no trace in the prompt: dropping them from the list gives the
    same prompt, and a list made only of them gives the empty prompt. *)
Theorem formatPrompt_skips messages (patterns : list string) :
  prompt (List.filter Prompt.speaks messages) patterns = prompt messages patterns
  ∧ ((∀ msg, msg ∈ messages → Prompt.speaks msg = false) →
     prompt messages patterns = EmptyString).
Proof.
  unfold Prompt.formatPrompt.
  assert (∀ msg, Prompt.speaks msg = false → parts patterns msg = []) as Hsilent.
  { intros msg. unfold Prompt.speaks, Prompt.parts_of.
    by destruct (Prompt.role msg) as [[]|]. }
  split.
  - f_equal. induction messages as [|msg messages IH]; [done|]. simpl.
    destruct (Prompt.speaks msg) eqn:Hs; simpl.
    + by rewrite IH.
    + by rewrite IH, Hsilent.
  - intros Hall.
    assert (flat_map (parts patterns) messages = []) as ->; [|done].
    induction messages as [|msg messages IH]; [done|]. simpl.
    rewrite Hsilent, IH; [done| |].
    + intros m Hm. apply Hall. by apply list_elem_of_further.
    + apply Hall, list_elem_of_here.
Qed.

(** X16. The prompt of a list of messages is put together from the
    prompts of its two halves: it is the prompt of the half that writes
    something when the other writes nothing, and otherwise the two
    prompts with one blank line between them. *)
Theorem formatPrompt_app messages messages' (patterns : list string) :
  prompt (messages ++ messages') patterns
  = if decide (flat_map (parts patterns) messages = []) then prompt messages' patterns
    else if decide (flat_map (parts patterns) messages' = [])
         then prompt messages patterns
         else prompt messages patterns +:+ JSString.newline +:+ JSString.newline
              +:+ prompt messages' patterns.
Proof.
  unfold Prompt.formatPrompt. rewrite flat_map_app.
  destruct (flat_map (parts patterns) messages) as [|x a] eqn:Ha.
  { by rewrite decide_True. }
  rewrite decide_False by done.
  destruct (flat_map (parts patterns) messages') as [|y b] eqn:Hb.
  { rewrite decide_True by done. by rewrite app_nil_r. }
  rewrite decide_False by done.
  rewrite concat_app_cons. unfold Prompt.separator.
  by rewrite !string_app_assoc.
Qed.

End PromptFacts.

Lemma formatPrompt_skips_witness :
  Prompt.formatPrompt (Content := string) (default EmptyString) (fun _ s => s)
    [Prompt.mkMessage (Some Prompt.system) (Some "Be brief") None None;
     Prompt.mkMessage None (Some "stray") None None] []
  = EmptyString.
Proof.
  refine (proj2 (formatPrompt_skips (default EmptyString) (fun _ s => s)
            [Prompt.mkMessage (Some Prompt.system) (Some "Be brief") None None;
             Prompt.mkMessage None (Some "stray") None None] []) _).
  intros msg Hin.
  apply elem_of_cons in Hin as [->|Hin]; [reflexivity|].
  apply list_elem_of_singleton in Hin as ->. reflexivity.
Defined.

(** ** The proxy in front of mcpbridge *)

Section McpBridgeProxyFacts.

Import McpBridgeProxy.

Context {Number : Type} (nonzero : Number → bool)
  (JSON_parse : @Value Number → option (@Value Number)).

Local Abbreviation patch := (patchIfNeeded nonzero JSON_parse).

Implicit Types (items pre post : list (@Value Number))
  (item props m result : gmap string (@Value Number)).

(** The item that [find] returns is the first object of the array whose
    [type] is the string text. *)
Lemma find_text_first items textItem :
  find_text items = Some (Some textItem) →
  ∃ pre item post,
    items = pre ++ Obj item :: post
    ∧ textItem = Obj item
    ∧ item !! "type" = Some (Str "text")
    ∧ (∀ props, Obj props ∈ pre → props !! "type" ≠ Some (Str "text")).
Proof.
  induction items as [|c items IH]; [done|].
  cbn [find_text]. destruct (is_text_item c) as [[|]|] eqn:Hc; [| |done].
  - intros [= <-]. destruct c as [| | | | |item]; try done.
    cbn [is_text_item] in Hc.
    destruct (item !! "type") as [[| | |s| |]|] eqn:Htype; try done.
    injection Hc as Hs. apply String.eqb_eq in Hs as ->.
    exists [], item, items. split_and!; try done.
    intros props Hin. by apply elem_of_nil in Hin.
  - intros Hfind. destruct (IH Hfind) as (pre & item & post & -> & -> & Ht & Hpre).
    exists (c :: pre), item, post. split_and!; try done.
    intros props Hin Htype. apply elem_of_cons in Hin as [<-|Hin].
    + cbn [is_text_item] in Hc. rewrite Htype in Hc. discriminate Hc.
    + by apply (Hpre props).
Qed.

(** Conversely, a search that does not throw returns the first such
    object. *)
Lemma find_text_app pre item post :
  (∀ props, Obj props ∈ pre → props !! "type" ≠ Some (Str "text")) →
  item !! "type" = Some (Str "text") →
  find_text (pre ++ Obj item :: post) = None
  ∨ find_text (pre ++ Obj item :: post) = Some (Some (Obj item)).
Proof.
  intros Hpre Ht. induction pre as [|c pre IH].
  - right. cbn [app find_text is_text_item]. by rewrite Ht.
  - cbn [app find_text].
    destruct (is_text_item c) as [[|]|] eqn:Hc; [|apply IH|by left].
    + destruct c as [| | | | |props]; try done.
      cbn [is_text_item] in Hc.
      destruct (props !! "type") as [[| | |s| |]|] eqn:Htype; try done.
      injection Hc as Hs. apply String.eqb_eq in Hs as ->.
      exfalso. apply (Hpre props); [apply list_elem_of_here|done].
    + intros props Hin. apply Hpre. by apply list_elem_of_further.
Qed.

(** X17. [patchIfNeeded] only ever adds [structuredContent] to the
    result of a message. When it returns, the message is unchanged, or it
    is the message whose result had no [structuredContent] and has gained
    one, every other property of the message and of its result being as
    before. The value added is made from the [text] of the first item of
    the [content] array whose [type] is the string text, that text being
    truthy: it is what [JSON.parse] returns for the text, or the object
    with the one property [text] when [JSON.parse] throws. Whenever the
    result has no [structuredContent] and its [content] has such a first
    text item, the message that comes back is the patched one. A
    [structuredContent] that is present is never replaced, and patching a
    second time changes nothing. *)
Theorem patchIfNeeded_spec msg msg' :
  patch msg = Some msg' →
  let patched m result text :=
    Obj (<["result" :=
            Obj (<["structuredContent" :=
                    match JSON_parse text with
                    | Some v => v
                    | None => Obj {["text" := text]}
                    end]> result)]> m) in
  let first_text result pre item post text :=
    result !! "content" = Some (Arr (pre ++ Obj item :: post))
    ∧ (∀ props, Obj props ∈ pre → props !! "type" ≠ Some (Str "text"))
    ∧ item !! "type" = Some (Str "text")
    ∧ item !! "text" = Some text
    ∧ truthy nonzero text = true in
  patch msg' = Some msg'
  ∧ (msg' = msg
     ∨ ∃ m result pre item post text,
         msg = Obj m
         ∧ m !! "result" = Some (Obj result)
         ∧ result !! "structuredContent" = None
         ∧ first_text result pre item post text
         ∧ msg' = patched m result text)
  ∧ (∀ m result pre item post text,
       msg = Obj m → m !! "result" = Some (Obj result) →
       result !! "structuredContent" = None →
       first_text result pre item post text →
       msg' = patched m result text)
  ∧ (∀ m result v,
       msg = Obj m → m !! "result" = Some (Obj result) →
       result !! "structuredContent" = Some v → msg' = msg).
Proof.
  intros Hp patched first_text.
  assert (msg' = msg → patch msg' = Some msg') as Hsame by (by intros ->).
  unfold patchIfNeeded in Hp.
  destruct msg as [| | | | |m];
    try (injection Hp as <-; split_and!; [by auto|by left|done..]); [done|].
  destruct (m !! "result") as [[| | | | |result]|] eqn:Hres;
    try (injection Hp as <-; split_and!; [by auto|by left|intros; congruence..]).
  assert ((∀ pre item post text, first_text result pre item post text → False) →
          ∀ m0 result0 pre item post text,
            Obj m = Obj m0 → m0 !! "result" = Some (Obj result0) →
            result0 !! "structuredContent" = None →
            first_text result0 pre item post text →
            msg' = patched m0 result0 text) as Hmine.
  { intros HP m0 result0 pre item post text [= <-] Hres0.
    rewrite Hres in Hres0. injection Hres0 as <-. intros _ Hf.
    destruct (HP _ _ _ _ Hf). }
  assert (∀ m0 result0 v, Obj m = Obj m0 → m0 !! "result" = Some (Obj result0) →
            result0 !! "structuredContent" = Some v →
            result !! "structuredContent" = Some v) as Hsc0.
  { intros m0 result0 v [= <-] Hres0. rewrite Hres in Hres0. by injection Hres0 as <-. }
  destruct (result !! "content") as [content|] eqn:Hcontent.
  2:{ injection Hp as <-. split_and!; [by auto|by left| |done].
      apply Hmine. intros pre item post text (Hc & _). congruence. }
  destruct (result !! "structuredContent") as [sc|] eqn:Hsc.
  { assert (msg' = Obj m) as ->.
    { destruct content as [| | | |[|c items]|]; by injection Hp as <-. }
    split_and!; [by auto|by left| |done].
    intros m0 result0 pre item post text [= <-] Hres0.
    rewrite Hres in Hres0. injection Hres0 as <-. congruence. }
  assert (∀ m0 result0 v, Obj m = Obj m0 → m0 !! "result" = Some (Obj result0) →
            result0 !! "structuredContent" = Some v → msg' = Obj m) as Hnever.
  { intros m0 result0 v Hm Hr Hv. by specialize (Hsc0 m0 result0 v Hm Hr Hv). }
  destruct content as [| | | |[|c items]|];
    try (injection Hp as <-; split_and!; [by auto|by left| |done];
         apply Hmine; intros pre item post text (Hc & _);
         rewrite Hcontent in Hc; try done;
         injection Hc as Hc; by destruct pre).
  destruct (find_text (c :: items)) as [[textItem|]|] eqn:Hfind; [| |done].
  2:{ injection Hp as <-. split_and!; [by auto|by left| |done].
      apply Hmine. intros pre item post text (Hc & Hpre & Ht & _).
      rewrite Hcontent in Hc. injection Hc as Hc. rewrite Hc in Hfind.
      destruct (find_text_app pre item post Hpre Ht); congruence. }
  destruct (find_text_first _ _ Hfind) as (pre & item & post & Hitems & -> & Ht & Hpre).
  assert (∀ pre0 item0 post0 text0, first_text result pre0 item0 post0 text0 →
            item0 = item) as Hitem.
  { intros pre0 item0 post0 text0 (Hc & Hpre0 & Ht0 & _).
    rewrite Hcontent in Hc. injection Hc as Hc. rewrite Hc in Hfind.
    destruct (find_text_app pre0 item0 post0 Hpre0 Ht0); congruence. }
  cbn [text_of] in Hp.
  destruct (item !! "text") as [text|] eqn:Htext.
  2:{ injection Hp as <-. split_and!; [by auto|by left| |done].
      apply Hmine. intros pre0 item0 post0 text0 Hf.
      pose proof (Hitem _ _ _ _ Hf) as ->. destruct Hf as (_ & _ & _ & Hx & _).
      congruence. }
  destruct (truthy nonzero text) eqn:Htruthy.
  2:{ injection Hp as <-. split_and!; [by auto|by left| |done].
      apply Hmine. intros pre0 item0 post0 text0 Hf.
      pose proof (Hitem _ _ _ _ Hf) as ->. destruct Hf as (_ & _ & _ & Hx & Hy).
      congruence. }
  injection Hp as <-. split_and!; [| | |done].
  - unfold patchIfNeeded. rewrite lookup_insert_eq.
    rewrite lookup_insert_ne by done. rewrite Hcontent.
    by rewrite lookup_insert_eq.
  - right. exists m, result, pre, item, post, text.
    unfold first_text. rewrite Hcontent, Hitems. by split_and!.
  - intros m0 result0 pre0 item0 post0 text0 [= <-] Hres0.
    rewrite Hres in Hres0. injection Hres0 as <-. intros _ Hf.
    pose proof (Hitem _ _ _ _ Hf) as ->. destruct Hf as (_ & _ & _ & Hx & _).
    assert (text0 = text) as -> by congruence. reflexivity.
Qed.

End McpBridgeProxyFacts.

Lemma patchIfNeeded_spec_witness :
  let nonzero := fun z : Z => negb (z =? 0)%Z in
  let item : gmap string McpBridgeProxy.Value :=
    <["type" := McpBridgeProxy.Str "text"]> {["text" := McpBridgeProxy.Str "built"]} in
  let image : gmap string McpBridgeProxy.Value :=
    {["type" := McpBridgeProxy.Str "image"]} in
  let result : gmap string McpBridgeProxy.Value :=
    {["content" := McpBridgeProxy.Arr
        [McpBridgeProxy.Obj image; McpBridgeProxy.Obj item]]} in
  let msg := McpBridgeProxy.Obj {["result" := McpBridgeProxy.Obj result]} in
  let patched :=
    McpBridgeProxy.Obj {["result" := McpBridgeProxy.Obj
      (<["structuredContent" :=
           McpBridgeProxy.Obj {["text" := McpBridgeProxy.Str "built"]}]> result)]} in
  McpBridgeProxy.patchIfNeeded nonzero (fun _ => None) msg = Some patched
  ∧ McpBridgeProxy.patchIfNeeded nonzero (fun _ => None) patched = Some patched.
Proof.
  intros nonzero item image result msg patched.
  assert (McpBridgeProxy.patchIfNeeded nonzero (fun _ => None) msg = Some patched)
    as Hp by (vm_compute; reflexivity).
  split; [exact Hp|].
  exact (proj1 (patchIfNeeded_spec nonzero (fun _ => None) msg patched Hp)).
Defined.

(** A content array that holds [null] before any text item makes the
    search throw. *)
Example patchIfNeeded_throws :
  McpBridgeProxy.patchIfNeeded (fun z : Z => negb (z =? 0)%Z) (fun _ => None)
    (McpBridgeProxy.Obj {["result" := McpBridgeProxy.Obj
       {["content" := McpBridgeProxy.Arr [McpBridgeProxy.Null]]}]})
  = None.
Proof. vm_compute. reflexivity. Qed.

(** ** The tool-bridge state: one tool does not disturb another *)

Section BridgeIsolation.

Import ToolBridge.

(** X18. The queues of the tools are independent. Registering an
    expected call for [nm], a bridge request for [nm], resolving a call,
    and the expiry of a timer all leave the queue of every other tool as
    it was. *)
Theorem other_queues_untouched nm nm' (w : World) :
  nm' ≠ nm →
  (∀ id, expectedByName (this (step w (RegisterExpected id nm))) !! nm'
         = expectedByName (this w) !! nm')
  ∧ expectedByName (this (step w (RegisterMCPRequest nm))) !! nm'
    = expectedByName (this w) !! nm'
  ∧ (∀ id result, expectedByName (this (step w (ResolveToolCall id result)))
                  = expectedByName (this w))
  ∧ (∀ h, expectedByName (this (step w (TimerFires h))) = expectedByName (this w)).
Proof.
  intros Hne. split_and!.
  - intros id. cbn [step this set_this]. by apply registerExpected_other.
  - cbn [step].
    destruct (tool_call_route_cases nm w)
      as [[_ ->]|[(queue & _ & ->)|(id & queue & _ & _ & ->)]];
      cbn [this expectedByName set_pendingByCallId set_expectedByName]; [done|..].
    + unfold shifted. destruct queue.
      * by rewrite lookup_delete_ne, lookup_insert_ne.
      * by rewrite lookup_insert_ne.
    + unfold shifted. destruct queue.
      * by rewrite lookup_delete_ne, lookup_insert_ne.
      * by rewrite lookup_insert_ne.
  - intros id result. cbn [step]. unfold resolveToolCall.
    by destruct (pendingByCallId (this w) !! id).
  - intros h. cbn [step]. unfold timer_fires.
    by destruct (timers w !! h) as [[x rej]|].
Qed.

Lemma other_queues_untouched_witness :
  let w := set_this (registerExpected "tc1" "Write") new_world in
  expectedByName (this (step w (RegisterMCPRequest "Read"))) !! "Write"
  = Some ["tc1"].
Proof.
  intros w.
  destruct (other_queues_untouched "Read" "Write" w) as (_ & H & _).
  - discriminate.
  - rewrite H. reflexivity.
Defined.

End BridgeIsolation.
